(** * Recovery Operations orchestration: a shallow embedding

    The development follows the source units that make up the
    orchestration engine of the repository:

    - the type declarations (DisasterType, AgentStatus, RecoveryTask),
    - the service functions [generateRecoveryPlan] and [processVoiceCommand],
    - the component [RecoveryOps] of views/RecoveryOps.tsx: its state hooks,
      its event handlers and its main execution effect,

    and, around it, the remaining text-level functions of the service (the
    threat and event type mappings, the alert text, the slicing done before
    [JSON.parse]) and the preference toggle of the early warning view.

    Task objects are mutated in place by the handlers
    ([newTasks[i].status = ...] after a shallow copy [[...tasks]]), and the
    voice handler keeps the array it closed over when the microphone button
    was pressed.  The embedding therefore keeps an explicit store of task
    objects; an array is a list of references into that store.  Asynchronous
    calls (the planner, the speech recogniser, the command interpreter) are
    split at their suspension points into events of a transition system.
    A render that throws unmounts the component: from such a state on, no
    event has any effect. *)

From Stdlib Require Import ZArith String Ascii DecimalString Lia.
From stdpp Require Import base decidable option list strings.

Open Scope string_scope.
Open Scope list_scope.

(** Successive setter calls of one handler read top to bottom. *)
Notation "s |> f" := (f s) (at level 49, left associativity, only parsing).

(** ** Type declarations *)

Inductive DisasterType :=
| EARTHQUAKE | FLOOD | WILDFIRE | HURRICANE | TSUNAMI | VOLCANO | STORM | GENERAL.

(** The string value of each enum member, as interpolated into log lines. *)
Definition DisasterType_value (t : DisasterType) : string :=
  match t with
  | EARTHQUAKE => "Earthquake"
  | FLOOD => "Flood"
  | WILDFIRE => "Wildfire"
  | HURRICANE => "Hurricane"
  | TSUNAMI => "Tsunami"
  | VOLCANO => "Volcano"
  | STORM => "Severe Storm"
  | GENERAL => "General Emergency"
  end.

Inductive AgentStatus :=
| IDLE | ANALYZING | PLANNING | EXECUTING | PAUSED | AWAITING_APPROVAL | COMPLETED.

#[global] Instance AgentStatus_eq_dec : EqDecision AgentStatus.
Proof. solve_decision. Defined.

(** The union type ['pending' | 'in-progress' | 'completed']. *)
Inductive TaskStatus := pending | in_progress | completed.

#[global] Instance TaskStatus_eq_dec : EqDecision TaskStatus.
Proof. solve_decision. Defined.

Module RecoveryTask.
Record t := mk {
  id : string;
  title : string;
  description : string;
  status : TaskStatus;
  assignedAgent : string;
  estimatedTime : string
}.

(** [{ ...t, status: st }], and the in-place assignment [t.status = st]. *)
Definition with_status (st : TaskStatus) (x : t) : t :=
  mk (id x) (title x) (description x) st (assignedAgent x) (estimatedTime x).
End RecoveryTask.

(** ** The object store

    A reference is a position in the store; objects are never freed.  An
    array of tasks is a list of references, so two arrays built from one
    another by [[...tasks]] share their objects. *)

Abbreviation ref := nat (only parsing).
Abbreviation Store := (list RecoveryTask.t) (only parsing).

(** Object literals and [JSON.parse] create fresh objects. *)
Definition allocate (objs : list RecoveryTask.t) (h : Store) : Store * list ref :=
  (h ++ objs, seq (length h) (length objs)).

(** [arr[i]] for a JavaScript number [i]: [undefined] outside the array. *)
Definition element {A : Type} (arr : list A) (i : Z) : option A :=
  if (i <? 0)%Z then None else arr !! Z.to_nat i.

(** [obj.status = st] on the object behind [r]. *)
Definition write_status (r : ref) (st : TaskStatus) (h : Store) : Store :=
  alter (RecoveryTask.with_status st) r h.

(** Reading a string field of the object behind [r]. *)
Definition read_text (f : RecoveryTask.t -> string) (h : Store) (r : ref) : string :=
  from_option f "undefined" (h !! r).

Definition read_status (h : Store) (r : ref) : option TaskStatus :=
  RecoveryTask.status <$> h !! r.

(** The task records an array denotes in a store. *)
Definition snapshot (h : Store) (arr : list ref) : list (option RecoveryTask.t) :=
  map (fun r => h !! r) arr.

(** ** Service functions *)

(** What an awaited call to the reasoning service yields inside a [try]
    block: the block throws (network error, [JSON.parse] failure, a result
    of the wrong shape), or the parsed value is available. *)
Inductive Outcome (A : Type) :=
| Throws
| Parsed (a : A).
Arguments Throws {A}.
Arguments Parsed {A} a.

Module GeminiService.

Definition fallbackPlan : list RecoveryTask.t :=
  [ RecoveryTask.mk "1" "Assess Damage" "Drone survey of affected area"
      pending "Recon Unit" "2 hours";
    RecoveryTask.mk "2" "Establish Comms" "Set up emergency mesh network"
      pending "Comms Team" "1 hour";
    RecoveryTask.mk "3" "Medical Triage" "Set up field hospital at safe zone"
      pending "Medical Unit" "3 hours" ].

(** [generateRecoveryPlan(type, location)]: the parsed array with every
    status overwritten by ['pending'], or the three fallback tasks when
    the [try] block throws.  The prompt only feeds the service call. *)
Definition generateRecoveryPlan (type : DisasterType) (location : string)
    (response : Outcome (list RecoveryTask.t)) : list RecoveryTask.t :=
  match response with
  | Parsed tasks => map (RecoveryTask.with_status pending) tasks
  | Throws => fallbackPlan
  end.

(** The object [JSON.parse(response.text || "{}")] of the interpreter:
    both properties may be absent. *)
Record VoiceJson := {
  updatedTasks : option (list RecoveryTask.t);
  reply : option string
}.

(** [x || d] on a string property: absent and empty strings are falsy. *)
Definition or_text (x : option string) (d : string) : string :=
  match x with
  | Some EmptyString => d
  | Some v => v
  | None => d
  end.

(** [processVoiceCommand(transcript, currentTasks)].  The result array is
    either the very array that was passed in, or an array of objects
    freshly created by [JSON.parse]. *)
Definition processVoiceCommand (transcript : string) (currentTasks : list ref)
    (response : Outcome VoiceJson) (h : Store) : Store * list ref * string :=
  match response with
  | Parsed result =>
      match updatedTasks result with
      | Some objs =>
          let '(h', arr) := allocate objs h in
          (h', arr, or_text (reply result) "Command acknowledged.")
      | None => (h, currentTasks, or_text (reply result) "Command acknowledged.")
      end
  | Throws => (h, currentTasks, "Signal interference. Command not processed.")
  end.

End GeminiService.

(** ** The component state

    The first group of fields are the [useState] cells of the component, under
    their source names.  The second group is what the JavaScript runtime
    holds on the component's behalf: the task objects, the pending
    [setTimeout] of the execution effect together with the values its
    callback closed over, the planner promises that have not settled, the
    speech recognisers created so far together with the [tasks] array their
    [onresult] closure captured, the interpreter promises that have not
    settled, and whether the browser offers speech recognition at all. *)

Inductive RecPhase :=
| Starting   (* [recognition.start()] called, [onstart] not yet delivered *)
| Active     (* [onstart] delivered *)
| Finishing  (* the result or an error was delivered, [onend] is still due *)
| Ended.

#[global] Instance RecPhase_eq_dec : EqDecision RecPhase.
Proof. solve_decision. Defined.

Record Recognition := mkRecognition {
  rec_tasks : list ref;
  rec_phase : RecPhase
}.

Record State := mkState {
  tasks : list ref;
  status : AgentStatus;
  activeTaskIndex : Z;
  logs : list string;
  simLocation : string;
  simType : DisasterType;
  isListening : bool;
  isProcessingVoice : bool;
  store : Store;
  timer : option (list ref * Z);
  planCalls : list (DisasterType * string);
  recognitions : list Recognition;
  voiceCalls : list (string * list ref);
  speechSupported : bool
}.

Definition setTasks (v : list ref) (s : State) : State :=
  let 'mkState _ b c d e f g h i j k l m n := s in mkState v b c d e f g h i j k l m n.
Definition setStatus (v : AgentStatus) (s : State) : State :=
  let 'mkState a _ c d e f g h i j k l m n := s in mkState a v c d e f g h i j k l m n.
Definition setActiveTaskIndex (v : Z) (s : State) : State :=
  let 'mkState a b _ d e f g h i j k l m n := s in mkState a b v d e f g h i j k l m n.
(** [setLogs(prev => [...prev, line])] *)
Definition pushLog (line : string) (s : State) : State :=
  let 'mkState a b c d e f g h i j k l m n := s in
  mkState a b c (d ++ [line]) e f g h i j k l m n.
Definition setSimLocation (v : string) (s : State) : State :=
  let 'mkState a b c d _ f g h i j k l m n := s in mkState a b c d v f g h i j k l m n.
Definition setSimType (v : DisasterType) (s : State) : State :=
  let 'mkState a b c d e _ g h i j k l m n := s in mkState a b c d e v g h i j k l m n.
Definition setIsListening (v : bool) (s : State) : State :=
  let 'mkState a b c d e f _ h i j k l m n := s in mkState a b c d e f v h i j k l m n.
Definition setIsProcessingVoice (v : bool) (s : State) : State :=
  let 'mkState a b c d e f g _ i j k l m n := s in mkState a b c d e f g v i j k l m n.
Definition setStore (v : Store) (s : State) : State :=
  let 'mkState a b c d e f g h _ j k l m n := s in mkState a b c d e f g h v j k l m n.
Definition setTimer (v : option (list ref * Z)) (s : State) : State :=
  let 'mkState a b c d e f g h i _ k l m n := s in mkState a b c d e f g h i v k l m n.
Definition setPlanCalls (v : list (DisasterType * string)) (s : State) : State :=
  let 'mkState a b c d e f g h i j _ l m n := s in mkState a b c d e f g h i j v l m n.
Definition setRecognitions (v : list Recognition) (s : State) : State :=
  let 'mkState a b c d e f g h i j k _ m n := s in mkState a b c d e f g h i j k v m n.
Definition setVoiceCalls (v : list (string * list ref)) (s : State) : State :=
  let 'mkState a b c d e f g h i j k l _ n := s in mkState a b c d e f g h i j k l v n.

(** The state on mount: the initial values of the hooks. *)
Definition mount (speech : bool) : State :=
  {| tasks := []; status := IDLE; activeTaskIndex := (-1)%Z; logs := [];
     simLocation := "Coastal District A"; simType := FLOOD;
     isListening := false; isProcessingVoice := false;
     store := []; timer := None; planCalls := []; recognitions := [];
     voiceCalls := []; speechSupported := speech |}.

(** A double quote, for the log lines that quote a title or a transcript. *)
Definition dq : string := String "034" EmptyString.

(** [`${n}`] for an array length. *)
Definition decimal (n : nat) : string := NilZero.string_of_uint (Nat.to_uint n).

(** ** The main execution effect

    [useEffect(..., [status, activeTaskIndex, tasks])]: when a dependency
    changed in the committed render, the cleanup clears the pending timeout
    and the body arms a new one under its guard.  The callback closes over
    the [tasks] and [activeTaskIndex] of that render.  The three seconds of
    the delay are not represented: the timeout is pending until it fires or
    is cleared. *)

Definition deps (s : State) : AgentStatus * Z * list ref :=
  (status s, activeTaskIndex s, tasks s).

Definition useEffect_main (prev next : State) : State :=
  if decide (deps prev = deps next) then next
  else if decide (status next = EXECUTING
                  ∧ (activeTaskIndex next < Z.of_nat (length (tasks next)))%Z)
       then setTimer (Some (tasks next, activeTaskIndex next)) next
       else setTimer None next.

(** The timeout callback.  [setStatus] runs first; building the log line
    dereferences [tasks[activeTaskIndex]], which throws when that element is
    [undefined], and then no line is appended. *)
Definition timeoutCallback (closure : list ref * Z) (s : State) : State :=
  let '(tasks0, index0) := closure in
  let s1 := setStatus AWAITING_APPROVAL s in
  match element tasks0 index0 with
  | Some r =>
      pushLog ("[SYSTEM] Task " +:+ dq +:+ read_text RecoveryTask.title (store s) r
               +:+ dq +:+ " pending Commander approval.") s1
  | None => s1
  end.

(** ** Event handlers *)

(** [handleGeneratePlan] up to its [await]. *)
Definition handleGeneratePlan (s : State) : State :=
  s |> setStatus PLANNING
    |> pushLog ("[AI] Analyzing impact for " +:+ DisasterType_value (simType s)
                +:+ " in " +:+ simLocation s +:+ "...")
    |> pushLog "[AI] Generating resource allocation strategy..."
    |> setPlanCalls (planCalls s ++ [(simType s, simLocation s)]).

(** [handleGeneratePlan] after its [await]: the [k]-th pending planner call
    settles with [response]. *)
Definition handleGeneratePlan_resumed (k : nat)
    (response : Outcome (list RecoveryTask.t)) (s : State) : State :=
  match planCalls s !! k with
  | None => s
  | Some (type, location) =>
      let plan := GeminiService.generateRecoveryPlan type location response in
      let '(h, arr) := allocate plan (store s) in
      s |> setPlanCalls (delete k (planCalls s))
        |> setStore h
        |> setTasks arr
        |> pushLog ("[AI] Plan generated with " +:+ decimal (length arr)
                    +:+ " operational phases.")
        |> setStatus IDLE
        |> setActiveTaskIndex (-1)%Z
  end.

Definition toggleExecution (s : State) : State :=
  if decide (status s = IDLE ∨ status s = PAUSED) then
    match tasks s with
    | [] => s
    | r0 :: _ =>
        if decide (activeTaskIndex s = (-1)%Z) then
          (* starting fresh: newTasks = [...tasks]; newTasks[0].status = ... *)
          let h := write_status r0 in_progress (store s) in
          s |> setStatus EXECUTING
            |> setActiveTaskIndex 0%Z
            |> setStore h
            |> setTasks (tasks s)
            |> pushLog "[SYSTEM] Operation Commenced."
            |> pushLog ("[STARTED] " +:+ read_text RecoveryTask.title h r0
                        +:+ " - Agent: " +:+ read_text RecoveryTask.assignedAgent h r0)
        else
          s |> setStatus EXECUTING
            |> pushLog "[SYSTEM] Operation Resumed."
    end
  else if decide (status s = EXECUTING) then
    s |> setStatus PAUSED
      |> pushLog "[SYSTEM] Operation Paused by Commander."
  else s.

(** [handleApproveTask].  Its only guard is on [activeTaskIndex]; when
    [newTasks[activeTaskIndex]] is [undefined] the first assignment throws
    before any setter has run. *)
Definition handleApproveTask (s : State) : State :=
  if decide (activeTaskIndex s = (-1)%Z) then s
  else
    match element (tasks s) (activeTaskIndex s) with
    | None => s
    | Some r =>
        let h1 := write_status r completed (store s) in
        let s1 :=
          s |> setStore h1
            |> pushLog ("[COMPLETED] " +:+ read_text RecoveryTask.title h1 r
                        +:+ " confirmed by Commander.") in
        let nextIndex := (activeTaskIndex s + 1)%Z in
        if decide (nextIndex < Z.of_nat (length (tasks s)))%Z then
          match element (tasks s) nextIndex with
          | Some r' =>
              let h2 := write_status r' in_progress h1 in
              s1 |> setStore h2
                 |> setTasks (tasks s)
                 |> setActiveTaskIndex nextIndex
                 |> setStatus EXECUTING
                 |> pushLog ("[STARTED] " +:+ read_text RecoveryTask.title h2 r'
                             +:+ " - Agent: "
                             +:+ read_text RecoveryTask.assignedAgent h2 r')
          | None => s1 (* not reached: 0 < nextIndex < newTasks.length *)
          end
        else
          s1 |> setTasks (tasks s)
             |> setStatus COMPLETED
             |> pushLog "[SYSTEM] All recovery operations completed successfully."
    end.

(** The [Pause / Review] button of the approval dialog. *)
Definition pauseForReview (s : State) : State := setStatus PAUSED s.

(** [handleVoiceCommand]: without speech support it only alerts; otherwise
    it creates a recogniser whose callbacks close over the current [tasks]
    and starts it.  The flags are raised by the callbacks, not here. *)
Definition handleVoiceCommand (s : State) : State :=
  if speechSupported s then
    setRecognitions (recognitions s ++ [mkRecognition (tasks s) Starting]) s
  else s.

Definition set_phase (i : nat) (p : RecPhase) (s : State) : State :=
  setRecognitions (alter (fun r => mkRecognition (rec_tasks r) p) i (recognitions s)) s.

Definition onstart (i : nat) (s : State) : State :=
  s |> set_phase i Active
    |> setIsListening true
    |> pushLog "[COMMS] Listening for voice command...".

Definition onend (i : nat) (s : State) : State :=
  s |> set_phase i Ended
    |> setIsListening false.

Definition onerror (i : nat) (error : string) (s : State) : State :=
  s |> set_phase i Finishing
    |> setIsListening false
    |> pushLog ("[COMMS] Voice signal lost. Error: " +:+ error).

(** [onresult] up to its [await]: the interpreter is called with the
    [tasks] array the closure captured. *)
Definition onresult (i : nat) (transcript : string) (s : State) : State :=
  match recognitions s !! i with
  | None => s
  | Some r =>
      s |> set_phase i Finishing
        |> pushLog ("[USER VOICE] " +:+ dq +:+ transcript +:+ dq)
        |> setIsProcessingVoice true
        |> pushLog "[AI] Analyzing intent..."
        |> setVoiceCalls (voiceCalls s ++ [(transcript, rec_tasks r)])
  end.

(** [onresult] after its [await]: the [k]-th pending interpreter call
    settles with [response]. *)
Definition onresult_resumed (k : nat) (response : Outcome GeminiService.VoiceJson)
    (s : State) : State :=
  match voiceCalls s !! k with
  | None => s
  | Some (transcript, currentTasks) =>
      let '(h, updatedTasks, reply) :=
        GeminiService.processVoiceCommand transcript currentTasks response (store s) in
      s |> setVoiceCalls (delete k (voiceCalls s))
        |> setStore h
        |> setTasks updatedTasks
        |> pushLog ("[AI REASONING] " +:+ reply)
        |> setIsProcessingVoice false
  end.

(** ** What the render offers

    The handlers above are reachable only through the controls of the
    rendered tree; these are the [disabled] attributes and the condition
    under which the approval dialog exists. *)

Definition generateDisabled (s : State) : bool :=
  bool_decide (status s ≠ IDLE ∧ status s ≠ COMPLETED).

Definition toggleDisabled (s : State) : bool :=
  bool_decide (length (tasks s) = 0%nat ∨ status s = COMPLETED
               ∨ status s = AWAITING_APPROVAL).

Definition voiceDisabled (s : State) : bool :=
  isListening s || isProcessingVoice s.

Definition approvalDialogShown (s : State) : bool :=
  bool_decide (status s = AWAITING_APPROVAL ∧ activeTaskIndex s ≠ (-1)%Z).

(** The approval dialog reads [tasks[activeTaskIndex].assignedAgent] (and
    [.title], [.description]).  When that element is [undefined] the read
    throws while rendering; no error boundary encloses the view, so React
    unmounts the tree.  Nothing else in the render dereferences a value that
    the handlers can make [undefined].  [renders s] says that the tree
    renders from the hook values of [s]; a state with [renders s = false]
    stands for the component at the failed render, after which it is gone. *)
Definition renders (s : State) : bool :=
  negb (approvalDialogShown s)
  || bool_decide (is_Some (element (tasks s) (activeTaskIndex s))).

(** The recogniser delivers [onstart] once after [start()], at most one
    result (it is not continuous), and [onend] last. *)
Definition phase_in (i : nat) (ps : list RecPhase) (s : State) : bool :=
  match recognitions s !! i with
  | Some r => bool_decide (rec_phase r ∈ ps)
  | None => false
  end.

(** ** The transition system *)

Inductive Event :=
| ChangeLocation (v : string)
| ChangeType (t : DisasterType)
| ClickGeneratePlan
| PlanSettles (k : nat) (response : Outcome (list RecoveryTask.t))
| ClickToggle
| TimeoutFires
| ClickApprove
| ClickPauseReview
| ClickVoice
| RecStart (i : nat)
| RecResult (i : nat) (transcript : string)
| RecError (i : nat) (error : string)
| RecEnd (i : nat)
| VoiceSettles (k : nat) (response : Outcome GeminiService.VoiceJson).

(** The state updates an event enqueues. *)
Definition dispatch (e : Event) (s : State) : State :=
  match e with
  | ChangeLocation v => setSimLocation v s
  | ChangeType t => setSimType t s
  | ClickGeneratePlan => if generateDisabled s then s else handleGeneratePlan s
  | PlanSettles k response => handleGeneratePlan_resumed k response s
  | ClickToggle => if toggleDisabled s then s else toggleExecution s
  | TimeoutFires =>
      match timer s with
      | Some closure => timeoutCallback closure (setTimer None s)
      | None => s
      end
  | ClickApprove => if approvalDialogShown s then handleApproveTask s else s
  | ClickPauseReview => if approvalDialogShown s then pauseForReview s else s
  | ClickVoice => if voiceDisabled s then s else handleVoiceCommand s
  | RecStart i => if phase_in i [Starting] s then onstart i s else s
  | RecResult i transcript =>
      if phase_in i [Active] s then onresult i transcript s else s
  | RecError i error =>
      if phase_in i [Starting; Active] s then onerror i error s else s
  | RecEnd i => if phase_in i [Active; Finishing] s then onend i s else s
  | VoiceSettles k response => onresult_resumed k response s
  end.

(** One event handled by the mounted component: its updates are committed,
    then the effect runs.  The result need not render (see [renders]); when
    it does not, the component is unmounted and what runs is the effect's
    cleanup, which like [useEffect_main] under AWAITING_APPROVAL leaves no
    timeout pending. *)
Definition step (e : Event) (s : State) : State :=
  useEffect_main s (dispatch e s).

(** One event arriving.  Once a render has failed the component is
    unmounted: its controls are gone, the cleanup has cleared the timeout,
    and the state setters called by callbacks still in flight (a planner or
    interpreter call settling, a recogniser event) do nothing. *)
Definition deliver (e : Event) (s : State) : State :=
  if renders s then step e s else s.

Definition run (es : list Event) (s : State) : State :=
  fold_left (fun acc e => deliver e acc) es s.

Definition reachable (s : State) : Prop :=
  exists speech es, s = run es (mount speech).

(** The timeout that was scheduled with closure [c] elapses: its callback
    runs if that timeout is still the pending one, and not at all once the
    effect's cleanup has cleared it. *)
Definition elapse (c : list ref * Z) (s : State) : State :=
  if decide (timer s = Some c) then deliver TimeoutFires s else s.

(** ** Observations *)

(** The status of the task at position [i] of the queue. *)
Definition task_status (s : State) (i : nat) : option TaskStatus :=
  tasks s !! i ≫= read_status (store s).

(** The queue as a reader sees it: the task records, in order. *)
Definition queue (s : State) : list (option RecoveryTask.t) :=
  snapshot (store s) (tasks s).

(** The class the log view gives a line: [log.includes('[AI]')] first, then
    [log.includes('[SYSTEM]')]. *)
Fixpoint includes (needle hay : string) : bool :=
  String.prefix needle hay
  || match hay with
     | EmptyString => false
     | String _ rest => includes needle rest
     end.

Inductive LogClass := AI_line | SYSTEM_line | other_line.

#[global] Instance LogClass_eq_dec : EqDecision LogClass.
Proof. solve_decision. Defined.

Definition log_class (line : string) : LogClass :=
  if includes "[AI]" line then AI_line
  else if includes "[SYSTEM]" line then SYSTEM_line
  else other_line.

Definition system_lines (ls : list string) : nat :=
  length (filter (fun l => log_class l = SYSTEM_line) ls).

(** ** Scenarios

    Concrete states and responses used to exercise the definitions. *)

(** The three lines every plan generation appends to the log. *)
Definition planLines (s : State) (n : nat) : list string :=
  [ "[AI] Analyzing impact for " +:+ DisasterType_value (simType s)
      +:+ " in " +:+ simLocation s +:+ "...";
    "[AI] Generating resource allocation strategy...";
    "[AI] Plan generated with " +:+ decimal n +:+ " operational phases." ].

(** The planner failed, the fallback plan was installed, execution started. *)
Definition afterStart : State :=
  run [ClickGeneratePlan; PlanSettles 0 Throws; ClickToggle] (mount true).

(** The first approval went through: the second task is running. *)
Definition secondRunning : State :=
  run [TimeoutFires; ClickApprove] afterStart.

(** A command is spoken while the second task runs; the interpreter call
    is pending. *)
Definition commandPending : State :=
  run [ClickVoice; RecStart 0; RecResult 0 "cancel the remaining tasks"]
    secondRunning.

(** The same command, with the second task's timeout elapsed before the
    interpreter answers: the approval dialog is up, the call is pending. *)
Definition commandAtApproval : State :=
  run [TimeoutFires] commandPending.

(** An interpreter result that keeps a single task. *)
Definition shrinkReply : GeminiService.VoiceJson :=
  {| GeminiService.updatedTasks :=
       Some [RecoveryTask.mk "1" "Assess Damage" "Drone survey of affected area"
               completed "Recon Unit" "2 hours"];
     GeminiService.reply := Some "Remaining tasks cancelled." |}.

(** An interpreter result with two tasks marked in progress. *)
Definition parallelReply : GeminiService.VoiceJson :=
  {| GeminiService.updatedTasks :=
       Some [RecoveryTask.mk "1" "Assess Damage" "Drone survey of affected area"
               in_progress "Recon Unit" "2 hours";
             RecoveryTask.mk "2" "Establish Comms" "Set up emergency mesh network"
               in_progress "Comms Team" "1 hour"];
     GeminiService.reply := Some "Both teams deployed." |}.

Definition parallelTrace : list Event :=
  [ClickVoice; RecStart 0; RecResult 0 "deploy both teams now";
   VoiceSettles 0 (Parsed parallelReply)].

(** The microphone is open: the recogniser has reported its start. *)
Definition listening : State :=
  run [ClickVoice; RecStart 0] (mount true).

(** The microphone is opened on an empty queue; while it listens a plan is
    generated; then the command is delivered to the interpreter. *)
Definition staleCommand : State :=
  run [ClickVoice; RecStart 0; ClickGeneratePlan; PlanSettles 0 Throws;
       RecResult 0 "status report"] (mount true).

(** ** Consistency of the hooks

    What every state the component can be in satisfies: the index is -1
    exactly before the first start, it is a natural number once execution
    has begun, and a timeout is pending exactly when the effect's guard
    holds, closed over the current array and index. *)

Definition timer_armed (s : State) : Prop :=
  timer s =
  if decide (status s = EXECUTING
             ∧ (activeTaskIndex s < Z.of_nat (length (tasks s)))%Z)
  then Some (tasks s, activeTaskIndex s) else None.

Definition begun (st : AgentStatus) : Prop :=
  st = EXECUTING ∨ st = PAUSED ∨ st = AWAITING_APPROVAL ∨ st = COMPLETED.

Record consistent (s : State) : Prop := {
  idle_index : status s = IDLE → activeTaskIndex s = (-1)%Z;
  begun_index : begun (status s) → (0 ≤ activeTaskIndex s)%Z;
  timeout_pending : timer_armed s
}.

(** ** Forward progress of the queue

    The shape the executor itself maintains: the array holds distinct, live
    objects; everything before the active index is completed and everything
    after it is pending (with index -1: everything is pending). *)

Definition shaped (ts : list ref) (h : Store) (ix : Z) : Prop :=
  NoDup ts
  ∧ (∀ r, r ∈ ts → (r < length h)%nat)
  ∧ (-1 ≤ ix)%Z
  ∧ ∀ i r, ts !! i = Some r →
      ((Z.of_nat i < ix)%Z → read_status h r = Some completed)
      ∧ ((ix < Z.of_nat i)%Z → read_status h r = Some pending).

Definition ordered (s : State) : Prop :=
  shaped (tasks s) (store s) (activeTaskIndex s).

(** The settling of an interpreter call is the one event that installs a
    queue the executor did not build. *)
Definition is_merge (e : Event) : bool :=
  match e with
  | VoiceSettles _ _ => true
  | _ => false
  end.

(** The executor between two tasks: running, its timeout pending, the
    index on a task. *)
Definition executing_at (s : State) : Prop :=
  status s = EXECUTING ∧ timer_armed s ∧ ordered s
  ∧ (0 ≤ activeTaskIndex s < Z.of_nat (length (tasks s)))%Z.

(** One task's worth of execution: the timeout elapses, the operator
    approves. *)
Definition approvals (n : nat) : list Event :=
  concat (replicate n [TimeoutFires; ClickApprove]).

(** The planner is called from one place, and the component is in
    PLANNING exactly while that call is pending. *)
Definition planning_tracked (s : State) : Prop :=
  (status s = PLANNING → length (planCalls s) = 1%nat)
  ∧ (status s ≠ PLANNING → planCalls s = []).

(** The controls of the operator and the timeout, as opposed to the
    settling of a pending call and the recogniser's events. *)
Definition controls : list Event :=
  [ClickGeneratePlan; ClickToggle; TimeoutFires; ClickApprove; ClickPauseReview].

(** An interpreter result that removes every task. *)
Definition clearReply : GeminiService.VoiceJson :=
  {| GeminiService.updatedTasks := Some [];
     GeminiService.reply := Some "All tasks stood down." |}.

(** The queue was emptied by a command while the first task was running. *)
Definition emptied : State :=
  run [ClickVoice; RecStart 0; RecResult 0 "stand down all tasks";
       VoiceSettles 0 (Parsed clearReply)] afterStart.

(** The first task is awaiting approval. *)
Definition awaitingFirst : State := run [TimeoutFires] afterStart.

(** The fallback plan was run to completion. *)
Definition finished : State :=
  run (approvals 3) afterStart.

(** The events of the voice channel: the microphone button, the
    recogniser's callbacks, and the settling of an interpreter call. *)
Definition is_voice_event (e : Event) : bool :=
  match e with
  | ClickVoice | RecStart _ | RecResult _ _ | RecError _ _ | RecEnd _
  | VoiceSettles _ _ => true
  | _ => false
  end.

(** ** The rest of the reasoning service

    The remaining functions of the service file.  The text helpers work on
    sequences of code units.  [toUpperCase] below is
    [String.prototype.toUpperCase] on ASCII text: the letters a-z are
    mapped, every other code unit is kept.  Outside ASCII the runtime's
    function maps further characters and may lengthen the text; where a
    result depends on that, the runtime's function is a parameter (see
    [eventTypeOf]). *)

#[global] Instance DisasterType_eq_dec : EqDecision DisasterType.
Proof. solve_decision. Defined.

(** [Object.values(DisasterType)], in declaration order. *)
Definition DisasterType_values : list DisasterType :=
  [EARTHQUAKE; FLOOD; WILDFIRE; HURRICANE; TSUNAMI; VOLCANO; STORM; GENERAL].

Definition upper_ascii (c : ascii) : ascii :=
  let n := nat_of_ascii c in
  if (97 <=? n)%nat && (n <=? 122)%nat then ascii_of_nat (n - 32) else c.

Fixpoint toUpperCase (s : string) : string :=
  match s with
  | EmptyString => EmptyString
  | String c rest => String (upper_ascii c) (toUpperCase rest)
  end.

Module GeminiAnalysis.

(** The step "Map to internal type" of [analyzeLocationRisks]:
    [threatStr = (result.dominantThreat || '').toUpperCase()], then the
    chain of keyword tests, for a [dominantThreat] that is ASCII text. *)
Definition dominantThreatOf (dominantThreat : option string) : DisasterType :=
  let threatStr := toUpperCase (GeminiService.or_text dominantThreat EmptyString) in
  if includes "QUAKE" threatStr then EARTHQUAKE
  else if includes "FLOOD" threatStr then FLOOD
  else if includes "FIRE" threatStr then WILDFIRE
  else if includes "CANE" threatStr || includes "CYCLONE" threatStr
          || includes "STORM" threatStr then HURRICANE
  else if includes "TSUNAMI" threatStr then TSUNAMI
  else GENERAL.

(** The [type] given to each event of [fetchGlobalDisasterHotspots]:
    [Object.values(DisasterType).find(t => t.toUpperCase() ===
    e.type?.toUpperCase()) || DisasterType.GENERAL].  Without a [type] the
    comparison is with [undefined] and never holds.  The reported type is
    arbitrary text, so the upper-casing is the runtime's, [upper]. *)
Definition eventTypeOf (upper : string → string) (type : option string)
    : DisasterType :=
  match type with
  | None => GENERAL
  | Some ty =>
      default GENERAL
        (find (λ t, String.eqb (upper (DisasterType_value t)) (upper ty))
              DisasterType_values)
  end.

(** [generateAlertMessage(type, location, severity)]: the service text, a
    fixed sentence when that text is absent or empty, or a sentence built
    from the type and location when the call throws.  The severity only
    enters the prompt. *)
Definition generateAlertMessage (type : DisasterType) (location : string)
    (response : Outcome (option string)) : string :=
  match response with
  | Parsed text =>
      GeminiService.or_text text "EMERGENCY ALERT: Seek shelter immediately."
  | Throws =>
      "EMERGENCY ALERT: " +:+ DisasterType_value type +:+ " detected in "
      +:+ location +:+ ". Take cover immediately."
  end.

(** [s.indexOf(c)] and [s.lastIndexOf(c)] for a single code unit; [None]
    stands for -1. *)
Definition indexOf (c : ascii) (s : list ascii) : option nat :=
  fst <$> list_find (λ x, x = c) s.

Definition lastIndexOf (c : ascii) (s : list ascii) : option nat :=
  (λ p, length s - 1 - fst p)%nat <$> list_find (λ x, x = c) (reverse s).

(** [s.substring(a, b)]: the arguments are swapped when [a > b] and
    clamped to the length. *)
Definition substring (a b : nat) (s : list ascii) : list ascii :=
  take (a `max` b - a `min` b) (drop (a `min` b) s).

(** The slicing both parsers apply to the cleaned text before
    [JSON.parse]: from the first opening bracket to the last closing one,
    when both occur. *)
Definition sliceJson (opening closing : ascii) (jsonString : list ascii)
    : list ascii :=
  match indexOf opening jsonString, lastIndexOf closing jsonString with
  | Some startIdx, Some endIdx => substring startIdx (endIdx + 1) jsonString
  | _, _ => jsonString
  end.

End GeminiAnalysis.

(** ** Early warning preferences *)

Module EarlyWarning.

(** The initial [alertConfig.types]. *)
Definition initialTypes : list DisasterType :=
  [EARTHQUAKE; FLOOD; WILDFIRE; TSUNAMI; HURRICANE].

(** [toggleDisasterType(type)] on [alertConfig.types]: a listed type is
    filtered out, an unlisted one is appended. *)
Definition toggleDisasterType (type : DisasterType) (types : list DisasterType)
    : list DisasterType :=
  if bool_decide (type ∈ types) then filter (λ t, t ≠ type) types
  else types ++ [type].

End EarlyWarning.

(** * Properties *)

(** ** Arrays and the store *)

Lemma element_Some {A : Type} (arr : list A) (i : Z) (x : A) :
  element arr i = Some x ↔ (0 ≤ i)%Z ∧ arr !! Z.to_nat i = Some x.
Proof.
  unfold element. destruct (Z.ltb_spec i 0); split.
  - discriminate.
  - intros [? _]. lia.
  - auto.
  - tauto.
Qed.

Lemma element_None_ge {A : Type} (arr : list A) (i : Z) :
  (0 ≤ i)%Z → element arr i = None → (Z.of_nat (length arr) ≤ i)%Z.
Proof.
  unfold element. destruct (Z.ltb_spec i 0); [lia|].
  intros _ Hn. apply lookup_ge_None in Hn. lia.
Qed.

Lemma element_of_nat {A : Type} (arr : list A) (i : nat) :
  element arr (Z.of_nat i) = arr !! i.
Proof.
  unfold element. destruct (Z.ltb_spec (Z.of_nat i) 0); [lia|].
  by rewrite Nat2Z.id.
Qed.


Lemma read_write_same (h : Store) (r : ref) (st : TaskStatus) :
  (r < length h)%nat → read_status (write_status r st h) r = Some st.
Proof.
  intros Hr. unfold read_status, write_status.
  destruct (lookup_lt_is_Some_2 h r Hr) as [x Hx].
  by rewrite list_lookup_alter_eq, Hx.
Qed.

Lemma read_write_other (h : Store) (r r' : ref) (st : TaskStatus) :
  r ≠ r' → read_status (write_status r st h) r' = read_status h r'.
Proof.
  intros Hne. unfold read_status, write_status.
  by rewrite list_lookup_alter_ne.
Qed.

Lemma write_status_length (h : Store) (r : ref) (st : TaskStatus) :
  length (write_status r st h) = length h.
Proof. unfold write_status. apply length_alter. Qed.

Lemma read_status_valid (h : Store) (r : ref) (st : TaskStatus) :
  read_status h r = Some st → (r < length h)%nat.
Proof.
  unfold read_status. intros H.
  destruct (h !! r) eqn:E; [|discriminate].
  by apply lookup_lt_Some in E.
Qed.

(** ** The effect only touches the timeout *)

Lemma useEffect_main_fields (prev next : State) :
  let s := useEffect_main prev next in
  tasks s = tasks next ∧ status s = status next
  ∧ activeTaskIndex s = activeTaskIndex next ∧ logs s = logs next
  ∧ store s = store next ∧ isListening s = isListening next
  ∧ isProcessingVoice s = isProcessingVoice next
  ∧ simLocation s = simLocation next ∧ simType s = simType next
  ∧ planCalls s = planCalls next ∧ recognitions s = recognitions next
  ∧ voiceCalls s = voiceCalls next ∧ speechSupported s = speechSupported next.
Proof.
  unfold useEffect_main. repeat case_decide; destruct next; cbn; tauto.
Qed.

Lemma useEffect_main_same (s : State) : useEffect_main s s = s.
Proof. unfold useEffect_main. by rewrite decide_True. Qed.

Lemma run_app (es es' : list Event) (s : State) :
  run (es ++ es') s = run es' (run es s).
Proof. unfold run. apply fold_left_app. Qed.

Lemma run_snoc (es : list Event) (e : Event) (s : State) :
  run (es ++ [e]) s = deliver e (run es s).
Proof. by rewrite run_app. Qed.

(** ** Mounted and unmounted *)

Lemma deliver_live (e : Event) (s : State) :
  renders s = true → deliver e s = step e s.
Proof. unfold deliver. by intros ->. Qed.



Lemma deliver_cases (P : State → Prop) (e : Event) (s : State) :
  P s → (renders s = true → P (step e s)) → P (deliver e s).
Proof. unfold deliver. destruct (renders s); auto. Qed.

Lemma renders_outside_approval (s : State) :
  status s ≠ AWAITING_APPROVAL → renders s = true.
Proof.
  intros H. unfold renders, approvalDialogShown.
  rewrite bool_decide_eq_false_2; [done|tauto].
Qed.

Lemma renders_element (s : State) (r : ref) :
  element (tasks s) (activeTaskIndex s) = Some r → renders s = true.
Proof.
  intros H. unfold renders. rewrite H.
  rewrite (bool_decide_eq_true_2 (is_Some (Some r))) by by eexists.
  apply orb_true_r.
Qed.

Lemma renders_false (s : State) :
  renders s = false ↔
  status s = AWAITING_APPROVAL ∧ activeTaskIndex s ≠ (-1)%Z
  ∧ element (tasks s) (activeTaskIndex s) = None.
Proof.
  unfold renders, approvalDialogShown.
  rewrite orb_false_iff, negb_false_iff, bool_decide_eq_true,
    bool_decide_eq_false, <- eq_None_not_Some. tauto.
Qed.

Lemma reachable_mount (speech : bool) : reachable (mount speech).
Proof. by exists speech, []. Qed.

Lemma reachable_step (e : Event) (s : State) :
  reachable s → reachable (deliver e s).
Proof.
  intros (speech & es & ->). exists speech, (es ++ [e]). by rewrite run_snoc.
Qed.

Lemma reachable_run (es : list Event) (s : State) :
  reachable s → reachable (run es s).
Proof.
  revert s. induction es as [|e es IH]; intros s Hs; [done|].
  cbn. apply IH. by apply reachable_step.
Qed.

Ltac decide_cases :=
  repeat match goal with
         | |- context [decide ?P] => destruct (decide P)
         | |- context [bool_decide ?P] => destruct (bool_decide_reflect P)
         end.

Lemma step_inert (e : Event) (s : State) : dispatch e s = s → step e s = s.
Proof. unfold step. intros ->. apply useEffect_main_same. Qed.

Lemma deliver_inert (e : Event) (s : State) :
  dispatch e s = s → deliver e s = s.
Proof. intros H. apply deliver_cases; [done|]. intros _. by apply step_inert. Qed.

Lemma snapshot_allocate (h : Store) (objs : list RecoveryTask.t) :
  snapshot (h ++ objs) (seq (length h) (length objs)) = map Some objs.
Proof.
  revert h. induction objs as [|x objs IH]; intros h; [done|].
  cbn. rewrite list_lookup_middle by done. f_equal.
  specialize (IH (h ++ [x])). rewrite <- app_assoc in IH. cbn in IH.
  rewrite length_app in IH. cbn in IH. by rewrite Nat.add_1_r in IH.
Qed.

Arguments useEffect_main : simpl never.
Arguments step : simpl never.
Arguments deliver : simpl never.

Lemma setTimer_timer (s : State) : setTimer (timer s) s = s.
Proof. by destruct s. Qed.

Lemma step_eq (e : Event) (s : State) :
  step e s = setTimer (timer (step e s)) (dispatch e s).
Proof.
  unfold step, useEffect_main.
  destruct (decide _); [by rewrite setTimer_timer|].
  destruct (decide _); by destruct (dispatch e s).
Qed.

(** Decide the guards whose arguments are concrete. *)
Ltac eval_guards :=
  repeat match goal with
         | |- context [bool_decide ?P] =>
             let b := eval vm_compute in (bool_decide P) in
             lazymatch b with
             | true => change (bool_decide P) with true
             | false => change (bool_decide P) with false
             end
         | |- context [decide ?P] =>
             let d := eval vm_compute in (decide P) in
             lazymatch d with
             | left _ => change (decide P) with d
             | right _ => change (decide P) with d
             end
         end.

(** An event arriving in a state whose render is seen to succeed is
    handled. *)
Ltac undeliver :=
  match goal with
  | |- context [deliver ?e ?s] =>
      lazymatch s with
      | context [deliver _ _] => fail
      | context [step _ _] => fail
      | _ => idtac
      end;
      rewrite (deliver_live e s)
        by (unfold renders, approvalDialogShown; cbn; eval_guards; reflexivity)
  end.

(** Expose the innermost [step] as its handler's updates, the timeout it
    leaves being abstracted. *)
Ltac unstep :=
  try undeliver;
  match goal with
  | |- context [step ?e ?s] =>
      lazymatch s with context [step _ _] => fail | _ => idtac end;
      let t := fresh "tm" in
      rewrite (step_eq e s); generalize (timer (step e s)); intros t;
      cbn; unfold generateDisabled, toggleDisabled, approvalDialogShown,
        voiceDisabled, phase_in; cbn; eval_guards; cbn
  end.

(** ** Planner failure *)

(** C7, as stated, fails: no SYSTEM line is recorded when the planner
    fails; the lines appended are the three [AI] lines of any plan
    generation. *)
Lemma C7_counterexample :
  ¬ (∀ s : State, status s = IDLE ∨ status s = COMPLETED → planCalls s = [] →
       let s' := run [ClickGeneratePlan; PlanSettles 0 Throws] s in
       system_lines (drop (length (logs s)) (logs s')) = 1%nat).
Proof.
  intros H. specialize (H (mount true) (or_introl eq_refl) eq_refl).
  vm_compute in H. discriminate.
Qed.

(** C7, amended: when the planner fails during plan generation the queue
    becomes the three fallback tasks, all pending, the index is -1, the
    state is IDLE again, no planner call is left pending, and the log gains
    exactly the three [AI] lines of a plan generation (the last one
    reporting 3 phases); none of them is a SYSTEM line. *)
Theorem C7_planner_failure_fallback (s : State) :
  status s = IDLE ∨ status s = COMPLETED → planCalls s = [] →
  let s' := run [ClickGeneratePlan; PlanSettles 0 Throws] s in
  queue s' = map Some GeminiService.fallbackPlan
  ∧ Forall (λ x, RecoveryTask.status x = pending) GeminiService.fallbackPlan
  ∧ activeTaskIndex s' = (-1)%Z
  ∧ status s' = IDLE
  ∧ planCalls s' = []
  ∧ logs s' = logs s ++ planLines s 3
  ∧ Forall (λ l, log_class l = AI_line) (planLines s 3)
  ∧ system_lines (planLines s 3) = 0%nat.
Proof.
  intros Hst Hpc. destruct s as [ts st ix lg loc ty li pv h tm pc rc vc sp].
  cbn in Hst, Hpc. subst pc.
  pose proof (snapshot_allocate h GeminiService.fallbackPlan) as Hq.
  cbn in Hq.
  destruct Hst; subst st; cbn; unstep; unstep; unfold queue; cbn;
    rewrite <- ?app_assoc; cbn; (repeat split; try done; try (repeat constructor)).
Qed.

Lemma C7_planner_failure_fallback_witness :
  let s' := run [ClickGeneratePlan; PlanSettles 0 Throws] (mount true) in
  queue s' = map Some GeminiService.fallbackPlan
  ∧ Forall (λ x, RecoveryTask.status x = pending) GeminiService.fallbackPlan
  ∧ activeTaskIndex s' = (-1)%Z
  ∧ status s' = IDLE
  ∧ planCalls s' = []
  ∧ logs s' = logs (mount true) ++ planLines (mount true) 3
  ∧ Forall (λ l, log_class l = AI_line) (planLines (mount true) 3)
  ∧ system_lines (planLines (mount true) 3) = 0%nat.
Proof. apply (C7_planner_failure_fallback (mount true)); [by left|done]. Defined.

(** ** The toggle *)

(** C10: the start/pause toggle changes nothing (state, queue, index, log)
    while the operation state is PLANNING, AWAITING_APPROVAL or COMPLETED,
    or while it is IDLE or PAUSED with an empty queue; this holds for the
    handler and for a click on its button. *)
Theorem C10_toggle_inert (s : State) :
  status s = PLANNING ∨ status s = AWAITING_APPROVAL ∨ status s = COMPLETED
  ∨ ((status s = IDLE ∨ status s = PAUSED) ∧ tasks s = []) →
  toggleExecution s = s ∧ step ClickToggle s = s.
Proof.
  intros H.
  assert (Hh : toggleExecution s = s).
  { unfold toggleExecution.
    destruct H as [H|[H|[H|[H Ht]]]]; rewrite ?H, ?Ht;
      decide_cases; try done; intuition congruence. }
  split; [done|]. apply step_inert. cbn. by destruct (toggleDisabled s).
Qed.

Lemma C10_toggle_inert_witness :
  toggleExecution (mount true) = mount true
  ∧ step ClickToggle (mount true) = mount true.
Proof.
  apply (C10_toggle_inert (mount true)).
  right; right; right. split; [by left|reflexivity].
Defined.

(** ** Approval *)

(** C2: outside AWAITING_APPROVAL approving changes nothing.  [approve()] is
    the click on the dialog's Confirm button, the one place
    [handleApproveTask] is called from, and the dialog exists only while the
    state is AWAITING_APPROVAL.  In every other state, reachable or not, the
    click leaves the whole component state as it was, and with it the task
    queue and [activeTaskIndex]. *)
Theorem C2_approve_outside_approval (s : State) :
  status s ≠ AWAITING_APPROVAL →
  deliver ClickApprove s = s
  ∧ queue (deliver ClickApprove s) = queue s
  ∧ activeTaskIndex (deliver ClickApprove s) = activeTaskIndex s.
Proof.
  intros H.
  assert (Hd : deliver ClickApprove s = s).
  { apply deliver_inert. cbn. unfold approvalDialogShown.
    rewrite bool_decide_eq_false_2; [done|tauto]. }
  by rewrite Hd.
Qed.

Lemma C2_approve_outside_approval_witness :
  deliver ClickApprove afterStart = afterStart
  ∧ queue (deliver ClickApprove afterStart) = queue afterStart
  ∧ activeTaskIndex (deliver ClickApprove afterStart) = activeTaskIndex afterStart.
Proof. apply (C2_approve_outside_approval afterStart). by vm_compute. Defined.

(** ** Command merge *)

Lemma onresult_resumed_fields (s : State) (k : nat) (tr : string)
    (cur : list ref) (r : Outcome GeminiService.VoiceJson) :
  voiceCalls s !! k = Some (tr, cur) →
  let out := GeminiService.processVoiceCommand tr cur r (store s) in
  let s' := step (VoiceSettles k r) s in
  store s' = out.1.1 ∧ tasks s' = out.1.2
  ∧ logs s' = logs s ++ ["[AI REASONING] " +:+ out.2]
  ∧ status s' = status s ∧ activeTaskIndex s' = activeTaskIndex s
  ∧ voiceCalls s' = delete k (voiceCalls s)
  ∧ isProcessingVoice s' = false ∧ isListening s' = isListening s
  ∧ recognitions s' = recognitions s ∧ planCalls s' = planCalls s.
Proof.
  intros Hk. cbn zeta. rewrite step_eq. generalize (timer (step (VoiceSettles k r) s)).
  intros t. cbn [dispatch]. unfold onresult_resumed. rewrite Hk.
  destruct (GeminiService.processVoiceCommand tr cur r (store s)) as [[h arr] rep].
  by destruct s.
Qed.




(** ** Consistency is an invariant *)

Lemma dispatch_timer (e : Event) (s : State) :
  e ≠ TimeoutFires → timer (dispatch e s) = timer s.
Proof.
  intros He. destruct e; try done; destruct s; cbn;
    unfold handleGeneratePlan_resumed, toggleExecution, handleApproveTask,
      handleVoiceCommand, onresult, onresult_resumed,
      GeminiService.processVoiceCommand; cbn;
    repeat (case_match; cbn; try done); done.
Qed.

Lemma useEffect_main_armed (prev next : State) :
  timer_armed prev →
  timer next = timer prev ∨ deps prev ≠ deps next →
  timer_armed (useEffect_main prev next).
Proof.
  unfold timer_armed, useEffect_main. intros Hp Hn.
  destruct (decide (deps prev = deps next)) as [Hd|Hd].
  - destruct Hn as [Hn|]; [|done]. rewrite Hn, Hp.
    unfold deps in Hd. injection Hd as -> -> ->. done.
  - destruct (decide (status next = EXECUTING ∧ _)) as [Hc|Hc];
      destruct next; cbn in *.
    + by rewrite decide_True.
    + by rewrite decide_False.
Qed.

Lemma timer_armed_executing (s : State) (c : list ref * Z) :
  timer_armed s → timer s = Some c → status s = EXECUTING.
Proof.
  unfold timer_armed. intros -> H. destruct (decide _) as [[? _]|]; done.
Qed.

Lemma dispatch_index (e : Event) (s : State) :
  consistent s →
  (status (dispatch e s) = IDLE → activeTaskIndex (dispatch e s) = (-1)%Z)
  ∧ (begun (status (dispatch e s)) → (0 ≤ activeTaskIndex (dispatch e s))%Z).
Proof.
  intros [Hi Hb Ht].
  assert (Hx : ∀ c, timer s = Some c → status s = EXECUTING)
    by (intros c; by apply timer_armed_executing).
  clear Ht. unfold begun in *.
  destruct e; destruct s as [ts st ix lg loc ty li pv h tm pc rc vc sp];
    cbn in *;
    unfold generateDisabled, toggleDisabled, approvalDialogShown, voiceDisabled,
      phase_in, handleGeneratePlan_resumed, toggleExecution, handleApproveTask,
      handleVoiceCommand, onresult, onresult_resumed, timeoutCallback,
      GeminiService.processVoiceCommand; cbn in *;
    repeat (case_match; cbn in *; try done; subst);
    try (split; intros; first [done | lia | intuition (first [congruence | lia])]).
  all: try (specialize (Hx _ eq_refl); subst; split; intros;
            first [done | intuition (first [congruence | lia])]).
  all: repeat match goal with
             | H : bool_decide _ = true |- _ => apply bool_decide_eq_true_1 in H
             | H : bool_decide _ = false |- _ => apply bool_decide_eq_false_1 in H
             end;
       split; intros; destruct st; try discriminate;
       intuition (try congruence; try lia).
Qed.

Lemma step_consistent (e : Event) (s : State) :
  consistent s → consistent (step e s).
Proof.
  intros Hs. pose proof (dispatch_index e s Hs) as [Hi Hb].
  destruct (useEffect_main_fields s (dispatch e s)) as (_ & Est & Eix & _).
  unfold step. split.
  - by rewrite Est, Eix.
  - by rewrite Est, Eix.
  - apply useEffect_main_armed; [apply Hs|].
    assert (He : e = TimeoutFires ∨ e ≠ TimeoutFires)
      by (destruct e; (by left) || (by right)).
    destruct He as [->|He].
    + cbn. destruct (timer s) as [c|] eqn:Et; [right|by left].
      pose proof (timer_armed_executing s c (timeout_pending s Hs) Et) as Hx.
      unfold deps. intros Heq. injection Heq as Heq _ _.
      revert Heq. rewrite Hx. destruct c as [ts0 ix0]. unfold timeoutCallback.
      destruct s; cbn. by case_match.
    + left. by apply dispatch_timer.
Qed.

Lemma mount_consistent (speech : bool) : consistent (mount speech).
Proof. split; [done| |done]. intros [H|[H|[H|H]]]; discriminate H. Qed.

Lemma reachable_consistent (s : State) : reachable s → consistent s.
Proof.
  intros (speech & es & ->). induction es as [|e es IH] using rev_ind.
  - apply mount_consistent.
  - rewrite run_snoc. apply deliver_cases; [done|].
    intros _. by apply step_consistent.
Qed.

(** A component that has been unmounted has no timeout pending. *)
Lemma unmounted_no_timeout (s : State) :
  reachable s → renders s = false → timer s = None.
Proof.
  intros Hr Hd. apply renders_false in Hd as (Hst & _).
  pose proof (timeout_pending s (reachable_consistent s Hr)) as Ht.
  unfold timer_armed in Ht. rewrite Ht, decide_False; [done|].
  rewrite Hst. by intros [? _].
Qed.

(** ** The pending timeout *)

(** C8: a timeout scheduled while EXECUTING does nothing once the run has
    invalidated it.  Let [c] be the timeout pending in a reachable state
    [s0].  After any further events, if the state is no longer EXECUTING
    (pause, approval, completion, a new plan), or the task array is another
    one (a command or a plan replaced the queue), or the index has moved,
    then [c] is not the pending timeout any more, so its elapsing leaves
    the state, the queue and the index as they are; outside EXECUTING no
    timeout is pending at all and the timeout event is a no-op; and a
    timeout that is pending is always the one scheduled for the current
    array and index. *)
Theorem C8_stale_timeout_inert (s0 : State) (c : list ref * Z)
    (es : list Event) :
  reachable s0 → timer s0 = Some c →
  let s := run es s0 in
  status s ≠ EXECUTING ∨ tasks s ≠ tasks s0
  ∨ activeTaskIndex s ≠ activeTaskIndex s0 →
  timer s ≠ Some c
  ∧ elapse c s = s
  ∧ (status s ≠ EXECUTING → timer s = None ∧ deliver TimeoutFires s = s)
  ∧ (∀ c', timer s = Some c' → c' = (tasks s, activeTaskIndex s)).
Proof.
  intros Hr Hc s Hch.
  assert (Hold : c = (tasks s0, activeTaskIndex s0)).
  { pose proof (timeout_pending _ (reachable_consistent _ Hr)) as H0.
    unfold timer_armed in H0. rewrite Hc in H0.
    case_decide; [congruence|done]. }
  assert (Hcur : ∀ c', timer s = Some c' →
                       status s = EXECUTING ∧ c' = (tasks s, activeTaskIndex s)).
  { intros c' E.
    pose proof (timeout_pending _ (reachable_consistent _ (reachable_run es s0 Hr)))
      as H1.
    fold s in H1. unfold timer_armed in H1. rewrite E in H1.
    case_decide; [|done]. split; [tauto|congruence]. }
  assert (Hne : timer s ≠ Some c).
  { intros E. destruct (Hcur c E) as [Hx E']. rewrite Hold in E'.
    injection E' as Et Ei. destruct Hch as [?|[?|?]]; congruence. }
  split_and!.
  - done.
  - unfold elapse. by rewrite decide_False.
  - intros Hst. assert (Ht : timer s = None).
    { destruct (timer s) as [c'|] eqn:E; [|done].
      destruct Hst. by apply (Hcur c'). }
    split; [done|]. apply deliver_inert. cbn. by rewrite Ht.
  - intros c' E. by apply Hcur.
Qed.

Lemma C8_stale_timeout_inert_witness :
  let c := ([0; 1; 2]%nat, 0%Z) in
  (let s := run parallelTrace afterStart in
   timer s ≠ Some c
   ∧ elapse c s = s
   ∧ (status s ≠ EXECUTING → timer s = None ∧ deliver TimeoutFires s = s)
   ∧ (∀ c', timer s = Some c' → c' = (tasks s, activeTaskIndex s)))
  ∧ (let s := run [ClickToggle] afterStart in
     timer s ≠ Some c
     ∧ elapse c s = s
     ∧ (status s ≠ EXECUTING → timer s = None ∧ deliver TimeoutFires s = s)
     ∧ (∀ c', timer s = Some c' → c' = (tasks s, activeTaskIndex s))).
Proof.
  split.
  - apply (C8_stale_timeout_inert afterStart ([0; 1; 2]%nat, 0%Z) parallelTrace).
    + unfold afterStart. apply reachable_run, reachable_mount.
    + by vm_compute.
    + right. left. by vm_compute.
  - apply (C8_stale_timeout_inert afterStart ([0; 1; 2]%nat, 0%Z) [ClickToggle]).
    + unfold afterStart. apply reachable_run, reachable_mount.
    + by vm_compute.
    + left. by vm_compute.
Defined.

(** ** Pause and resume *)

(** C9: from a reachable EXECUTING state, pausing and then resuming leaves
    the index, the task array and every task object as they were, after
    the pause and after the resume, whether the two calls are made on the
    handler or through its button; with a non-empty queue the state goes
    to PAUSED and back to EXECUTING and two lines are logged. *)
Theorem C9_pause_resume_frame (s : State) :
  reachable s → status s = EXECUTING →
  let paused := step ClickToggle s in
  let resumed := step ClickToggle paused in
  (activeTaskIndex paused = activeTaskIndex s ∧ tasks paused = tasks s
   ∧ store paused = store s)
  ∧ (activeTaskIndex resumed = activeTaskIndex s ∧ tasks resumed = tasks s
     ∧ store resumed = store s ∧ queue resumed = queue s)
  ∧ (activeTaskIndex (toggleExecution (toggleExecution s)) = activeTaskIndex s
     ∧ tasks (toggleExecution (toggleExecution s)) = tasks s
     ∧ store (toggleExecution (toggleExecution s)) = store s)
  ∧ (tasks s ≠ [] →
     status paused = PAUSED ∧ status resumed = EXECUTING
     ∧ logs resumed = logs s ++ ["[SYSTEM] Operation Paused by Commander.";
                                 "[SYSTEM] Operation Resumed."]).
Proof.
  intros Hr Hst.
  pose proof (begun_index s (reachable_consistent s Hr)) as Hix.
  rewrite Hst in Hix. specialize (Hix (or_introl eq_refl)).
  destruct s as [ts st ix lg loc ty li pv h tm pc rc vc sp]. cbn in Hst, Hix.
  subst st. cbn zeta. unfold queue.
  destruct ts as [|r ts]; unstep; unstep; unfold toggleExecution; cbn;
    eval_guards; cbn.
  - repeat split; done.
  - destruct (decide (ix = (-1)%Z)) as [->|_]; [lia|]. cbn.
    rewrite <- app_assoc. repeat split; done.
Qed.

Lemma C9_pause_resume_frame_witness :
  let paused := step ClickToggle afterStart in
  let resumed := step ClickToggle paused in
  (activeTaskIndex paused = activeTaskIndex afterStart
   ∧ tasks paused = tasks afterStart ∧ store paused = store afterStart)
  ∧ (activeTaskIndex resumed = activeTaskIndex afterStart
     ∧ tasks resumed = tasks afterStart
     ∧ store resumed = store afterStart ∧ queue resumed = queue afterStart)
  ∧ (activeTaskIndex (toggleExecution (toggleExecution afterStart))
     = activeTaskIndex afterStart
     ∧ tasks (toggleExecution (toggleExecution afterStart)) = tasks afterStart
     ∧ store (toggleExecution (toggleExecution afterStart)) = store afterStart)
  ∧ (tasks afterStart ≠ [] →
     status paused = PAUSED ∧ status resumed = EXECUTING
     ∧ logs resumed = logs afterStart
                      ++ ["[SYSTEM] Operation Paused by Commander.";
                          "[SYSTEM] Operation Resumed."]).
Proof.
  apply (C9_pause_resume_frame afterStart).
  - unfold afterStart. apply reachable_run, reachable_mount.
  - by vm_compute.
Defined.

(** ** One command at a time *)

(** C5 at its failing input: the microphone button is pressed twice before
    the first recogniser has reported its start.  The button is disabled by
    [isListening] and [isProcessingVoice], and [isListening] is raised by
    [onstart], not by the press: after the first press a recogniser has been
    started, both flags are still down and the button is still enabled, and
    the second press is accepted: a second recogniser is created and
    started, closed over the same [tasks], while the first command is
    outstanding. *)
Theorem C5_second_press_accepted :
  let s1 := run [ClickVoice] (mount true) in
  let s2 := run [ClickVoice] s1 in
  recognitions s1 = [mkRecognition [] Starting]
  ∧ isListening s1 = false ∧ isProcessingVoice s1 = false
  ∧ voiceDisabled s1 = false
  ∧ recognitions s2 = [mkRecognition [] Starting; mkRecognition [] Starting].
Proof. by vm_compute. Qed.

(** The gate as far as it reaches: while [isListening] or
    [isProcessingVoice] is set the microphone button is disabled and a
    press changes nothing; in the mounted component with both flags down
    (and speech recognition available) a press creates exactly one
    recogniser, not yet listening, closed over the current [tasks], and
    changes nothing else. *)
Theorem voice_button_gate (s : State) :
  (isListening s = true ∨ isProcessingVoice s = true →
   deliver ClickVoice s = s)
  ∧ (renders s = true →
     isListening s = false → isProcessingVoice s = false →
     speechSupported s = true →
     deliver ClickVoice s
     = setRecognitions (recognitions s ++ [mkRecognition (tasks s) Starting]) s).
Proof.
  split.
  - intros H. apply deliver_inert. cbn. unfold voiceDisabled.
    destruct H as [-> | ->]; [done|]. by rewrite orb_true_r.
  - intros Hr Hl Hp Hsp. rewrite (deliver_live _ s Hr). unfold step.
    assert (Hd : dispatch ClickVoice s
                 = setRecognitions
                     (recognitions s ++ [mkRecognition (tasks s) Starting]) s).
    { cbn. unfold voiceDisabled, handleVoiceCommand. by rewrite Hl, Hp, Hsp. }
    rewrite Hd. unfold useEffect_main. rewrite decide_True; [done|].
    by destruct s.
Qed.

Lemma voice_button_gate_witness :
  deliver ClickVoice listening = listening
  ∧ deliver ClickVoice afterStart
    = setRecognitions
        (recognitions afterStart ++ [mkRecognition (tasks afterStart) Starting])
        afterStart.
Proof.
  split.
  - apply (voice_button_gate listening). left. by vm_compute.
  - apply (voice_button_gate afterStart); by vm_compute.
Defined.

(** ** Interpreter failure *)

(** When the interpreter fails, the array installed is the one the
    [onresult] closure captured when the button was pressed; the task
    objects, the operation state and the index are untouched and the
    failure line is logged. *)
Lemma interpreter_failure_installs_captured (s : State) (k : nat)
    (tr : string) (cur : list ref) :
  voiceCalls s !! k = Some (tr, cur) →
  let s' := step (VoiceSettles k Throws) s in
  tasks s' = cur ∧ store s' = store s
  ∧ status s' = status s ∧ activeTaskIndex s' = activeTaskIndex s
  ∧ logs s' = logs s
              ++ ["[AI REASONING] Signal interference. Command not processed."].
Proof.
  intros Hk.
  destruct (onresult_resumed_fields s k tr cur Throws Hk)
    as (Hs & Ht & Hl & Hst & Hi & _).
  done.
Qed.

(** C6 at its failing input: the microphone was opened on the empty queue,
    a plan arrived while it listened, and the interpreter then failed.  The
    queue held the three fallback tasks before the interpreter call and is
    empty after it; state and index are unchanged and the failure line is
    the last log line. *)
Theorem C6_failure_restores_captured_queue :
  reachable staleCommand
  ∧ voiceCalls staleCommand = [("status report", [])]
  ∧ queue staleCommand = map Some GeminiService.fallbackPlan
  ∧ queue (step (VoiceSettles 0 Throws) staleCommand) = []
  ∧ status (step (VoiceSettles 0 Throws) staleCommand) = status staleCommand
  ∧ activeTaskIndex (step (VoiceSettles 0 Throws) staleCommand)
    = activeTaskIndex staleCommand
  ∧ last (logs (step (VoiceSettles 0 Throws) staleCommand))
    = Some "[AI REASONING] Signal interference. Command not processed.".
Proof.
  split.
  - unfold staleCommand. apply reachable_run, reachable_mount.
  - by vm_compute.
Qed.

(** ** What the executor's handlers do to the queue *)

Lemma approve_next (s : State) (r r' : ref) :
  activeTaskIndex s ≠ (-1)%Z →
  element (tasks s) (activeTaskIndex s) = Some r →
  element (tasks s) (activeTaskIndex s + 1) = Some r' →
  let s' := handleApproveTask s in
  tasks s' = tasks s
  ∧ store s' = write_status r' in_progress (write_status r completed (store s))
  ∧ activeTaskIndex s' = (activeTaskIndex s + 1)%Z
  ∧ status s' = EXECUTING.
Proof.
  intros Hi Hr Hr'. cbn zeta. unfold handleApproveTask.
  rewrite decide_False by done. rewrite Hr, Hr'.
  apply element_Some in Hr' as [_ Hl]. apply lookup_lt_Some in Hl.
  apply element_Some in Hr as [H0 _].
  rewrite decide_True by lia. by destruct s.
Qed.

Lemma approve_last (s : State) (r : ref) :
  activeTaskIndex s ≠ (-1)%Z →
  element (tasks s) (activeTaskIndex s) = Some r →
  element (tasks s) (activeTaskIndex s + 1) = None →
  let s' := handleApproveTask s in
  tasks s' = tasks s
  ∧ store s' = write_status r completed (store s)
  ∧ activeTaskIndex s' = activeTaskIndex s
  ∧ status s' = COMPLETED.
Proof.
  intros Hi Hr Hn. cbn zeta. unfold handleApproveTask.
  rewrite decide_False by done. rewrite Hr.
  apply element_Some in Hr as [H0 _].
  apply element_None_ge in Hn; [|lia].
  rewrite decide_False by lia. by destruct s.
Qed.

Lemma approve_undefined (s : State) :
  activeTaskIndex s = (-1)%Z ∨ element (tasks s) (activeTaskIndex s) = None →
  handleApproveTask s = s.
Proof.
  intros H. unfold handleApproveTask.
  destruct (decide (activeTaskIndex s = (-1)%Z)); [done|].
  destruct H as [H|H]; [done|by rewrite H].
Qed.

Lemma toggle_queue (s : State) :
  let s' := toggleExecution s in
  (tasks s' = tasks s ∧ store s' = store s
   ∧ activeTaskIndex s' = activeTaskIndex s)
  ∨ (∃ r0 ts, tasks s = r0 :: ts ∧ activeTaskIndex s = (-1)%Z
       ∧ tasks s' = tasks s
       ∧ store s' = write_status r0 in_progress (store s)
       ∧ activeTaskIndex s' = 0%Z ∧ status s' = EXECUTING).
Proof.
  cbn zeta. unfold toggleExecution.
  destruct (decide (status s = IDLE ∨ status s = PAUSED)).
  - destruct (tasks s) as [|r0 ts] eqn:Et; [by left|].
    destruct (decide (activeTaskIndex s = (-1)%Z)) as [Hi|Hi].
    + right. exists r0, ts. destruct s; cbn in *. by subst.
    + left. by destruct s.
  - destruct (decide (status s = EXECUTING)); left; by destruct s.
Qed.

(** ** The shape is kept *)

Lemma shaped_start (r0 : ref) (ts : list ref) (h : Store) :
  shaped (r0 :: ts) h (-1) →
  shaped (r0 :: ts) (write_status r0 in_progress h) 0.
Proof.
  intros (Hnd & Hv & _ & Hs). repeat split.
  - done.
  - intros r Hr. rewrite write_status_length. by apply Hv.
  - lia.
  - lia.
  - intros Hi. rewrite read_write_other.
    + apply (Hs i r H). lia.
    + intros ->. assert (i = 0)%nat by (by eapply NoDup_lookup). lia.
Qed.

Lemma shaped_advance (ts : list ref) (h : Store) (ix : Z) (r r' : ref) :
  shaped ts h ix →
  element ts ix = Some r → element ts (ix + 1) = Some r' →
  shaped ts (write_status r' in_progress (write_status r completed h)) (ix + 1).
Proof.
  intros (Hnd & Hv & Hm & Hs) Hr Hr'.
  apply element_Some in Hr as [H0 Hr]. apply element_Some in Hr' as [_ Hr'].
  assert (Hne : r ≠ r').
  { intros ->. assert (Z.to_nat ix = Z.to_nat (ix + 1)) by (by eapply NoDup_lookup).
    lia. }
  repeat split.
  - done.
  - intros x Hx. rewrite !write_status_length. by apply Hv.
  - lia.
  - intros Hi. destruct (decide (i = Z.to_nat ix)) as [->|Hn].
    + assert (r0 = r) as -> by congruence.
      rewrite read_write_other by done. apply read_write_same.
      apply Hv. by eapply list_elem_of_lookup_2.
    + rewrite !read_write_other.
      * apply (Hs i r0 H). lia.
      * intros ->. apply Hn. by eapply NoDup_lookup.
      * intros ->. assert (i = Z.to_nat (ix + 1)) by (by eapply NoDup_lookup). lia.
  - intros Hi. rewrite !read_write_other.
    + apply (Hs i r0 H). lia.
    + intros ->. assert (i = Z.to_nat ix) by (by eapply NoDup_lookup). lia.
    + intros ->. assert (i = Z.to_nat (ix + 1)) by (by eapply NoDup_lookup). lia.
Qed.

Lemma shaped_finish (ts : list ref) (h : Store) (ix : Z) (r : ref) :
  shaped ts h ix → element ts ix = Some r →
  shaped ts (write_status r completed h) ix.
Proof.
  intros (Hnd & Hv & Hm & Hs) Hr. apply element_Some in Hr as [H0 Hr].
  repeat split.
  - done.
  - intros x Hx. rewrite write_status_length. by apply Hv.
  - done.
  - intros Hi. rewrite read_write_other; [by apply (Hs i r0 H)|].
    intros ->. assert (i = Z.to_nat ix) by (by eapply NoDup_lookup). lia.
  - intros Hi. rewrite read_write_other; [by apply (Hs i r0 H)|].
    intros ->. assert (i = Z.to_nat ix) by (by eapply NoDup_lookup). lia.
Qed.

Lemma generateRecoveryPlan_pending (type : DisasterType) (location : string)
    (response : Outcome (list RecoveryTask.t)) :
  Forall (λ x, RecoveryTask.status x = pending)
    (GeminiService.generateRecoveryPlan type location response).
Proof.
  destruct response as [|objs]; cbn.
  - repeat constructor.
  - induction objs; constructor; done.
Qed.

Lemma shaped_allocate (h : Store) (objs : list RecoveryTask.t) :
  Forall (λ x, RecoveryTask.status x = pending) objs →
  shaped (seq (length h) (length objs)) (h ++ objs) (-1).
Proof.
  intros Hp. repeat split.
  - apply NoDup_seq.
  - intros r Hr. apply elem_of_seq in Hr. rewrite length_app. lia.
  - lia.
  - lia.
  - intros _. apply lookup_seq in H as [-> Hi].
    unfold read_status. rewrite lookup_app_r by lia.
    replace (length h + i - length h)%nat with i by lia.
    destruct (lookup_lt_is_Some_2 objs i Hi) as [x Hx]. rewrite Hx. cbn.
    f_equal. rewrite Forall_lookup in Hp. by eapply Hp.
Qed.

Lemma shaped_single (ts : list ref) (h : Store) (ix : Z) (i j : nat) :
  shaped ts h ix →
  ts !! i ≫= read_status h = Some in_progress →
  ts !! j ≫= read_status h = Some in_progress →
  i = j.
Proof.
  intros (_ & _ & _ & Hs) Hi Hj.
  destruct (ts !! i) as [ri|] eqn:Ei; [|done].
  destruct (ts !! j) as [rj|] eqn:Ej; [|done]. cbn in Hi, Hj.
  destruct (Hs i ri Ei) as [Hi1 Hi2]. destruct (Hs j rj Ej) as [Hj1 Hj2].
  rewrite Hi in Hi1, Hi2. rewrite Hj in Hj1, Hj2.
  destruct (Z.lt_trichotomy (Z.of_nat i) ix) as [H|[H|H]];
    [by specialize (Hi1 H)| |by specialize (Hi2 H)].
  destruct (Z.lt_trichotomy (Z.of_nat j) ix) as [H'|[H'|H']];
    [by specialize (Hj1 H')| |by specialize (Hj2 H')].
  lia.
Qed.

Lemma handleApproveTask_ordered (s : State) :
  ordered s → ordered (handleApproveTask s).
Proof.
  intros Ho. unfold ordered in *.
  destruct (decide (activeTaskIndex s = (-1)%Z)) as [Hi|Hi];
    [by rewrite approve_undefined by (by left)|].
  destruct (element (tasks s) (activeTaskIndex s)) as [r|] eqn:Er;
    [|by rewrite approve_undefined by (by right)].
  destruct (element (tasks s) (activeTaskIndex s + 1)) as [r'|] eqn:Er'.
  - destruct (approve_next s r r' Hi Er Er') as (-> & -> & -> & _).
    by apply shaped_advance.
  - destruct (approve_last s r Hi Er Er') as (-> & -> & -> & _).
    by apply shaped_finish.
Qed.

Lemma toggleExecution_ordered (s : State) :
  ordered s → ordered (toggleExecution s).
Proof.
  intros Ho. unfold ordered in *.
  destruct (toggle_queue s) as [(-> & -> & ->)|(r0 & ts & Et & Hi & -> & -> & -> & _)];
    [done|].
  rewrite Et, Hi in *. by apply shaped_start.
Qed.

Lemma dispatch_ordered (e : Event) (s : State) :
  is_merge e = false → ordered s → ordered (dispatch e s).
Proof.
  intros He Ho. destruct e; try discriminate He; cbn [dispatch].
  - by destruct s.
  - by destruct s.
  - destruct (generateDisabled s); [done|by destruct s].
  - unfold handleGeneratePlan_resumed.
    destruct (planCalls s !! k) as [[type location]|]; [|done].
    pose proof (generateRecoveryPlan_pending type location response) as Hp.
    apply (shaped_allocate (store s)) in Hp.
    unfold ordered. by destruct s.
  - destruct (toggleDisabled s); [done|by apply toggleExecution_ordered].
  - destruct (timer s) as [[ts0 ix0]|]; [|done].
    unfold timeoutCallback. destruct s; cbn in *. by case_match.
  - destruct (approvalDialogShown s); [by apply handleApproveTask_ordered|done].
  - destruct (approvalDialogShown s); [by destruct s|done].
  - destruct (voiceDisabled s); [done|].
    unfold handleVoiceCommand. destruct s; cbn in *. by case_match.
  - destruct (phase_in i [Starting] s); [by destruct s|done].
  - destruct (phase_in i [Active] s); [|done].
    unfold onresult. destruct s; cbn in *. by case_match.
  - destruct (phase_in i [Starting; Active] s); [by destruct s|done].
  - destruct (phase_in i [Active; Finishing] s); [by destruct s|done].
Qed.

Lemma step_ordered (e : Event) (s : State) :
  is_merge e = false → ordered s → ordered (step e s).
Proof.
  intros He Ho. pose proof (dispatch_ordered e s He Ho) as Hd.
  destruct (useEffect_main_fields s (dispatch e s)) as (Et & _ & Ei & _ & Eh & _).
  unfold ordered, step in *. by rewrite Et, Ei, Eh.
Qed.

Lemma mount_ordered (speech : bool) : ordered (mount speech).
Proof.
  repeat split; cbn; try done.
  - constructor.
  - intros r Hr. by apply elem_of_nil in Hr.
Qed.

Lemma run_ordered (es : list Event) (s : State) :
  forallb (λ e, negb (is_merge e)) es = true → ordered s → ordered (run es s).
Proof.
  revert s. induction es as [|e es IH]; intros s Hes Ho; [done|].
  cbn in Hes. apply andb_true_iff in Hes as [He Hes].
  cbn. apply IH; [done|]. apply deliver_cases; [done|].
  intros _. apply step_ordered; [|done].
  by destruct (is_merge e).
Qed.

(** ** At most one task in progress *)

(** C4, as stated, fails: a command merge installs whatever queue the
    interpreter returned, here one with two tasks in progress. *)
Lemma C4_counterexample :
  ¬ (∀ s : State, reachable s →
       ∀ i j : nat, task_status s i = Some in_progress →
                    task_status s j = Some in_progress → i = j).
Proof.
  intros H.
  assert (0 = 1)%nat; [|done].
  apply (H (run parallelTrace (mount true))).
  - apply reachable_run, reachable_mount.
  - by vm_compute.
  - by vm_compute.
Qed.

(** C4, amended: in every state reached from mount through events other
    than the settling of a command interpretation (plan generation, start
    and resume, pause, approval, the timeout, and the recogniser's own
    events), at most one task of the queue is in progress. *)
Theorem C4_single_in_progress_without_merge (speech : bool) (es : list Event)
    (i j : nat) :
  forallb (λ e, negb (is_merge e)) es = true →
  task_status (run es (mount speech)) i = Some in_progress →
  task_status (run es (mount speech)) j = Some in_progress →
  i = j.
Proof.
  intros Hes Hi Hj.
  pose proof (run_ordered es (mount speech) Hes (mount_ordered speech)) as Ho.
  by eapply shaped_single.
Qed.

Lemma C4_single_in_progress_without_merge_witness :
  task_status afterStart 0 = Some in_progress ∧ (0 = 0)%nat.
Proof.
  split; [by vm_compute|].
  apply (C4_single_in_progress_without_merge true
           [ClickGeneratePlan; PlanSettles 0 Throws; ClickToggle] 0 0).
  - by vm_compute.
  - by vm_compute.
  - by vm_compute.
Defined.

(** ** Running a plan to completion *)

Lemma useEffect_main_rearmed (prev next : State) :
  status prev ≠ status next → timer_armed (useEffect_main prev next).
Proof.
  intros Hne. unfold timer_armed, useEffect_main.
  rewrite decide_False by (unfold deps; congruence).
  destruct (decide (status next = EXECUTING ∧ _)) as [Hc|Hc];
    destruct next; cbn in *.
  - by rewrite decide_True.
  - by rewrite decide_False.
Qed.

Lemma timeout_elapses (s : State) (r : ref) :
  status s = EXECUTING → timer_armed s →
  element (tasks s) (activeTaskIndex s) = Some r →
  let s' := step TimeoutFires s in
  status s' = AWAITING_APPROVAL ∧ tasks s' = tasks s ∧ store s' = store s
  ∧ activeTaskIndex s' = activeTaskIndex s
  ∧ logs s' = logs s
              ++ ["[SYSTEM] Task " +:+ dq +:+ read_text RecoveryTask.title (store s) r
                  +:+ dq +:+ " pending Commander approval."].
Proof.
  intros Hst Ht Hr. cbn zeta. unfold step.
  destruct (useEffect_main_fields s (dispatch TimeoutFires s))
    as (-> & -> & -> & -> & -> & _).
  pose proof Hr as Hr0. apply element_Some in Hr0 as [H0 Hl].
  apply lookup_lt_Some in Hl.
  unfold timer_armed in Ht. rewrite decide_True in Ht by (split; [done|lia]).
  cbn [dispatch]. rewrite Ht. unfold timeoutCallback. rewrite Hr.
  by destruct s.
Qed.

Lemma approval_round (s : State) :
  executing_at s →
  let s' := run [TimeoutFires; ClickApprove] s in
  tasks s' = tasks s
  ∧ ((activeTaskIndex s + 1 < Z.of_nat (length (tasks s)))%Z →
     executing_at s' ∧ activeTaskIndex s' = (activeTaskIndex s + 1)%Z)
  ∧ ((Z.of_nat (length (tasks s)) ≤ activeTaskIndex s + 1)%Z →
     status s' = COMPLETED
     ∧ ∀ i, (i < length (tasks s'))%nat → task_status s' i = Some completed).
Proof.
  intros (Hst & Ht & Ho & Hix). cbn zeta. cbn [run fold_left].
  rewrite (deliver_live TimeoutFires s)
    by (apply renders_outside_approval; by rewrite Hst).
  destruct (lookup_lt_is_Some_2 (tasks s) (Z.to_nat (activeTaskIndex s)))
    as [r Hr]; [lia|].
  assert (Er : element (tasks s) (activeTaskIndex s) = Some r)
    by (apply element_Some; split; [lia|done]).
  destruct (timeout_elapses s r Hst Ht Er) as (Tst & Tts & Th & Tix & _).
  set (t := step TimeoutFires s) in *.
  rewrite (deliver_live ClickApprove t)
    by (apply (renders_element t r); by rewrite Tts, Tix).
  assert (Ot : ordered t) by (unfold ordered; by rewrite Tts, Th, Tix).
  assert (Hni : activeTaskIndex t ≠ (-1)%Z) by lia.
  assert (Hd : dispatch ClickApprove t = handleApproveTask t).
  { cbn. unfold approvalDialogShown. by rewrite bool_decide_eq_true_2. }
  destruct (useEffect_main_fields t (dispatch ClickApprove t))
    as (Ets & Est & Eix & _ & Eh & _).
  fold (step ClickApprove t) in Ets, Est, Eix, Eh.
  rewrite Hd in Ets, Est, Eix, Eh.
  assert (Ert : element (tasks t) (activeTaskIndex t) = Some r)
    by (by rewrite Tts, Tix).
  destruct (element (tasks t) (activeTaskIndex t + 1)) as [r'|] eqn:Er'.
  - destruct (approve_next t r r' Hni Ert Er') as (Ats & Ah & Aix & Ast).
    pose proof Er' as Hlt. apply element_Some in Hlt as [_ Hlt].
    apply lookup_lt_Some in Hlt. rewrite Tts, Tix in Hlt.
    split; [by rewrite Ets, Ats|]. split; [|lia]. intros _.
    split; [|by rewrite Eix, Aix, Tix].
    unfold executing_at. split_and!.
    + by rewrite Est.
    + unfold step. apply useEffect_main_rearmed. rewrite Hd, Ast, Tst. done.
    + apply step_ordered; done.
    + rewrite Eix, Aix. lia.
    + rewrite Eix, Aix, Ets, Ats, Tts, Tix. lia.
  - destruct (approve_last t r Hni Ert Er') as (Ats & Ah & Aix & Ast).
    apply element_None_ge in Er'; [|lia]. rewrite Tts, Tix in Er'.
    split; [by rewrite Ets, Ats|]. split; [lia|]. intros _.
    split; [by rewrite Est|].
    pose proof (shaped_finish _ _ _ r Ot Ert) as (_ & _ & _ & Hs).
    rewrite Tts, Tix, Th in Hs.
    intros i Hi. unfold task_status. rewrite Eh, Ah, Th, Ets, Ats, Tts.
    rewrite Ets, Ats, Tts in Hi.
    destruct (lookup_lt_is_Some_2 (tasks s) i Hi) as [ri Hri]. rewrite Hri. cbn.
    destruct (decide (i = Z.to_nat (activeTaskIndex s))) as [->|Hne].
    + assert (ri = r) as -> by congruence.
      apply read_write_same. destruct Ho as (_ & Hv & _).
      apply Hv. by eapply list_elem_of_lookup_2.
    + apply (Hs i ri Hri). lia.
Qed.

Lemma approvals_complete (m : nat) (s : State) :
  executing_at s →
  (Z.of_nat (length (tasks s)) - activeTaskIndex s = Z.of_nat m)%Z →
  let s' := run (approvals m) s in
  status s' = COMPLETED ∧ tasks s' = tasks s
  ∧ ∀ i, (i < length (tasks s'))%nat → task_status s' i = Some completed.
Proof.
  revert s. induction m as [|m IH]; intros s Hs Hm.
  - destruct Hs as (_ & _ & _ & ?). lia.
  - cbn zeta. unfold approvals. cbn [replicate concat].
    rewrite run_app. fold (approvals m).
    destruct (approval_round s Hs) as (Ets & Hnext & Hlast).
    destruct (decide (activeTaskIndex s + 1 < Z.of_nat (length (tasks s)))%Z)
      as [Hlt|Hge].
    + destruct (Hnext Hlt) as [Hs' Hix].
      destruct (IH _ Hs') as (? & Et & ?); [rewrite Ets, Hix; lia|].
      repeat split; [done|by rewrite Et|done].
    + assert (m = 0)%nat as -> by lia. cbn [approvals replicate concat run fold_left].
      destruct Hlast as [? ?]; [lia|]. done.
Qed.

(** C1: from IDLE with index -1 and a non-empty queue of distinct pending
    tasks, [start()] followed by one (timeout, approve) pair per task ends
    in COMPLETED with the same queue and every task completed. *)
Theorem C1_run_to_completion (s : State) :
  tasks s ≠ [] → NoDup (tasks s) →
  (∀ i, (i < length (tasks s))%nat → task_status s i = Some pending) →
  status s = IDLE → activeTaskIndex s = (-1)%Z →
  let s' := run (ClickToggle :: approvals (length (tasks s))) s in
  status s' = COMPLETED ∧ tasks s' = tasks s
  ∧ ∀ i, (i < length (tasks s'))%nat → task_status s' i = Some completed.
Proof.
  intros Hne Hnd Hp Hst Hix. cbn zeta. cbn [run fold_left].
  rewrite (deliver_live ClickToggle s)
    by (apply renders_outside_approval; by rewrite Hst).
  fold (run (approvals (length (tasks s))) (step ClickToggle s)).
  assert (Ho : ordered s).
  { assert (Hq : ∀ i r, tasks s !! i = Some r →
                        read_status (store s) r = Some pending).
    { intros i r Hi. pose proof (lookup_lt_Some _ _ _ Hi) as Hlt.
      specialize (Hp i Hlt). unfold task_status in Hp. by rewrite Hi in Hp. }
    unfold ordered, shaped. rewrite Hix. split_and!; [done| |done|].
    - intros r Hr. apply list_elem_of_lookup in Hr as [i Hi].
      eapply read_status_valid, Hq, Hi.
    - intros i r Hi. split; [lia|]. intros _. by eapply Hq. }
  assert (Hd : dispatch ClickToggle s = toggleExecution s).
  { cbn. unfold toggleDisabled. rewrite bool_decide_eq_false_2; [done|].
    rewrite Hst. destruct (tasks s); [done|]. cbn. intuition congruence. }
  destruct (useEffect_main_fields s (dispatch ClickToggle s))
    as (Ets & Est & Eix & _ & Eh & _).
  fold (step ClickToggle s) in Ets, Est, Eix, Eh. rewrite Hd in Ets, Est, Eix, Eh.
  destruct (toggle_queue s) as [(_ & _ & Hsame)|(r0 & ts & Et & _ & Tts & Th & Tix & Tst)].
  { exfalso. revert Hsame. unfold toggleExecution.
    rewrite decide_True by (by left). destruct (tasks s); [done|].
    rewrite decide_True by done. destruct s; cbn in *. lia. }
  assert (Hs1 : executing_at (step ClickToggle s)).
  { unfold executing_at. split_and!.
    - by rewrite Est.
    - unfold step. apply useEffect_main_rearmed. rewrite Hd, Tst, Hst. done.
    - by apply step_ordered.
    - rewrite Eix, Tix. lia.
    - rewrite Eix, Tix, Ets, Tts, Et. cbn. lia. }
  destruct (approvals_complete (length (tasks s)) _ Hs1) as (? & Ef & ?).
  { rewrite Eix, Tix, Ets, Tts. lia. }
  repeat split; [done|by rewrite Ef, Ets|done].
Qed.

Lemma C1_run_to_completion_witness :
  let s := run [ClickGeneratePlan; PlanSettles 0 Throws] (mount true) in
  let s' := run (ClickToggle :: approvals (length (tasks s))) s in
  status s' = COMPLETED ∧ tasks s' = tasks s
  ∧ ∀ i, (i < length (tasks s'))%nat → task_status s' i = Some completed.
Proof.
  apply (C1_run_to_completion
           (run [ClickGeneratePlan; PlanSettles 0 Throws] (mount true))).
  - by vm_compute.
  - exact (NoDup_seq 0 3).
  - intros i Hi. vm_compute in Hi.
    destruct i as [|[|[|i]]]; [by vm_compute..|lia].
  - by vm_compute.
  - by vm_compute.
Defined.

(** * Further properties of the component *)

(** ** The activity log *)

Lemma dispatch_logs (e : Event) (s : State) :
  logs s `prefix_of` logs (dispatch e s).
Proof.
  destruct e; destruct s as [ts st ix lg loc ty li pv h tm pc rc vc sp];
    cbn;
    unfold handleGeneratePlan_resumed, toggleExecution, handleApproveTask,
      handleVoiceCommand, onresult, onresult_resumed, timeoutCallback,
      GeminiService.processVoiceCommand; cbn;
    repeat (case_match; cbn; try done);
    rewrite <- ?app_assoc; try done; by eexists.
Qed.

(** The log only grows: whatever events occur, the lines present before
    are still there afterwards, in the same order, as a prefix of the new
    log. *)
Theorem log_is_append_only (es : list Event) (s : State) :
  logs s `prefix_of` logs (run es s).
Proof.
  revert s. induction es as [|e es IH]; intros s; [done|].
  cbn. etrans; [|apply IH].
  apply (deliver_cases (λ t, logs s `prefix_of` logs t)); [done|]. intros _.
  destruct (useEffect_main_fields s (dispatch e s)) as (_ & _ & _ & El & _).
  unfold step. rewrite El. apply dispatch_logs.
Qed.

(** ** Index and timeout follow the operation state *)

(** In every reachable state the index is -1 while IDLE and is a natural
    number once execution has begun (EXECUTING, PAUSED, AWAITING_APPROVAL,
    COMPLETED). *)
Theorem index_follows_status (s : State) :
  reachable s →
  (status s = IDLE → activeTaskIndex s = (-1)%Z)
  ∧ (status s = EXECUTING ∨ status s = PAUSED ∨ status s = AWAITING_APPROVAL
     ∨ status s = COMPLETED → (0 ≤ activeTaskIndex s)%Z).
Proof. intros Hr. destruct (reachable_consistent s Hr) as [Hi Hb _]. by split. Qed.

Lemma index_follows_status_witness :
  (status afterStart = IDLE → activeTaskIndex afterStart = (-1)%Z)
  ∧ (status afterStart = EXECUTING ∨ status afterStart = PAUSED
     ∨ status afterStart = AWAITING_APPROVAL
     ∨ status afterStart = COMPLETED → (0 ≤ activeTaskIndex afterStart)%Z).
Proof.
  apply (index_follows_status afterStart).
  unfold afterStart. apply reachable_run, reachable_mount.
Defined.

(** In every reachable state a timeout is pending exactly when the state
    is EXECUTING and the index is below the queue length, and its callback
    then holds the current array and index. *)
Theorem timeout_pending_iff (s : State) :
  reachable s →
  (is_Some (timer s) ↔
   status s = EXECUTING ∧ (activeTaskIndex s < Z.of_nat (length (tasks s)))%Z)
  ∧ (∀ c, timer s = Some c → c = (tasks s, activeTaskIndex s)).
Proof.
  intros Hr. pose proof (timeout_pending s (reachable_consistent s Hr)) as Ht.
  unfold timer_armed in Ht. rewrite Ht.
  destruct (decide (status s = EXECUTING ∧ _)) as [Hc|Hc]; split.
  - split; [done|by eexists].
  - by intros c [= <-].
  - split; [by intros [? ?]|done].
  - done.
Qed.

Lemma timeout_pending_iff_witness :
  (is_Some (timer afterStart) ↔
   status afterStart = EXECUTING
   ∧ (activeTaskIndex afterStart < Z.of_nat (length (tasks afterStart)))%Z)
  ∧ (∀ c, timer afterStart = Some c
          → c = (tasks afterStart, activeTaskIndex afterStart)).
Proof.
  apply (timeout_pending_iff afterStart).
  unfold afterStart. apply reachable_run, reachable_mount.
Defined.

(** ** One plan generation at a time *)

Lemma dispatch_planning (e : Event) (s : State) :
  consistent s → planning_tracked s → planning_tracked (dispatch e s).
Proof.
  intros [_ _ Ht] [Hp Hn].
  assert (Hx : ∀ c, timer s = Some c → status s = EXECUTING)
    by (intros c; by apply timer_armed_executing).
  clear Ht. unfold planning_tracked in *.
  destruct e; destruct s as [ts st ix lg loc ty li pv h tm pc rc vc sp];
    cbn in *.
  4: { unfold handleGeneratePlan_resumed. cbn.
       destruct (pc !! k) as [[type location]|] eqn:Ek; cbn; [|done].
       split; [done|intros _].
       destruct (decide (st = PLANNING)) as [->|Hne].
       - specialize (Hp eq_refl). destruct pc as [|p [|]]; try done.
         by destruct k.
       - rewrite (Hn Hne) in Ek. done. }
  all: unfold generateDisabled, toggleDisabled, approvalDialogShown, voiceDisabled,
      phase_in, toggleExecution, handleApproveTask,
      handleVoiceCommand, onresult, onresult_resumed, timeoutCallback,
      GeminiService.processVoiceCommand; cbn in *;
    repeat (case_match; cbn in *; try done; subst).
  all: repeat match goal with
             | H : bool_decide _ = true |- _ => apply bool_decide_eq_true_1 in H
             | H : bool_decide _ = false |- _ => apply bool_decide_eq_false_1 in H
             | H : ∀ c, Some _ = Some c → _ |- _ => specialize (H _ eq_refl)
             end;
       try (rewrite Hn by (destruct st; intuition congruence));
       try (split; intros; first [done | destruct st; intuition congruence]).
  all: split; [discriminate|intros _; apply Hn; intros Heq];
       first [discriminate Heq | subst; intuition discriminate].
Qed.

Lemma reachable_planning (s : State) : reachable s → planning_tracked s.
Proof.
  intros (speech & es & ->). induction es as [|e es IH] using rev_ind.
  - split; [done|by intros _].
  - rewrite run_snoc. apply deliver_cases; [done|]. intros _.
    pose proof (reachable_consistent (run es (mount speech))
                  (reachable_run es _ (reachable_mount speech))) as Hc.
    pose proof (dispatch_planning e _ Hc IH) as Hd.
    destruct (useEffect_main_fields (run es (mount speech))
                (dispatch e (run es (mount speech))))
      as (_ & Est & _ & _ & _ & _ & _ & _ & _ & Ep & _).
    unfold planning_tracked, step in *. by rewrite Est, Ep.
Qed.

(** In every reachable state at most one planner call is pending, and one
    is pending exactly while the state is PLANNING. *)
Theorem one_plan_at_a_time (s : State) :
  reachable s →
  (length (planCalls s) ≤ 1)%nat ∧ (status s = PLANNING ↔ planCalls s ≠ []).
Proof.
  intros Hr. destruct (reachable_planning s Hr) as [Hp Hn].
  destruct (decide (status s = PLANNING)) as [He|He].
  - specialize (Hp He). split; [lia|]. split; [|done].
    intros _ Hnil. by rewrite Hnil in Hp.
  - rewrite (Hn He). split; [cbn; lia|]. split; done.
Qed.

Lemma one_plan_at_a_time_witness :
  (length (planCalls (run [ClickGeneratePlan] (mount true))) ≤ 1)%nat
  ∧ (status (run [ClickGeneratePlan] (mount true)) = PLANNING
     ↔ planCalls (run [ClickGeneratePlan] (mount true)) ≠ []).
Proof.
  apply (one_plan_at_a_time (run [ClickGeneratePlan] (mount true))).
  apply reachable_run, reachable_mount.
Defined.

Lemma no_timeout_outside_executing (s : State) :
  reachable s → status s ≠ EXECUTING → dispatch TimeoutFires s = s.
Proof.
  intros Hr Hst. cbn. destruct (timer s) as [c|] eqn:Et; [|done].
  destruct Hst. eapply timer_armed_executing; [|done].
  apply reachable_consistent, Hr.
Qed.

(** While a plan is being generated the operator's controls and the
    timeout are all inert: the state changes only when the planner call
    settles (or through the voice channel). *)
Theorem planning_locks_controls (s : State) (e : Event) :
  reachable s → status s = PLANNING → e ∈ controls → step e s = s.
Proof.
  intros Hr Hst He. apply step_inert.
  unfold controls in He. rewrite !elem_of_cons in He.
  destruct He as [->|[->|[->|[->|[->|He]]]]]; [..|by apply elem_of_nil in He].
  - cbn. unfold generateDisabled. rewrite Hst. done.
  - cbn. destruct (toggleDisabled s); [done|].
    unfold toggleExecution. rewrite Hst. done.
  - apply no_timeout_outside_executing; [done|]. by rewrite Hst.
  - cbn. unfold approvalDialogShown. rewrite Hst. done.
  - cbn. unfold approvalDialogShown. rewrite Hst. done.
Qed.

Lemma planning_locks_controls_witness :
  step ClickToggle (run [ClickGeneratePlan] (mount true))
  = run [ClickGeneratePlan] (mount true).
Proof.
  apply (planning_locks_controls (run [ClickGeneratePlan] (mount true)) ClickToggle).
  - apply reachable_run, reachable_mount.
  - by vm_compute.
  - unfold controls. rewrite !elem_of_cons. tauto.
Defined.

(** COMPLETED is left only by a new plan generation: every other event
    keeps the state COMPLETED and the index where it is. *)
Theorem completed_until_new_plan (s : State) (e : Event) :
  reachable s → status s = COMPLETED → e ≠ ClickGeneratePlan →
  status (step e s) = COMPLETED ∧ activeTaskIndex (step e s) = activeTaskIndex s.
Proof.
  intros Hr Hst He. unfold step.
  destruct (useEffect_main_fields s (dispatch e s)) as (_ & -> & -> & _).
  destruct (reachable_planning s Hr) as [_ Hn].
  assert (Hpc : planCalls s = []) by (apply Hn; by rewrite Hst).
  destruct e; try done;
    try (rewrite no_timeout_outside_executing; [done..|]; by rewrite Hst);
    cbn [dispatch].
  - by destruct s.
  - by destruct s.
  - unfold handleGeneratePlan_resumed. by rewrite Hpc.
  - unfold toggleDisabled. rewrite Hst. rewrite bool_decide_eq_true_2; [done|tauto].
  - unfold approvalDialogShown. by rewrite Hst.
  - unfold approvalDialogShown. by rewrite Hst.
  - destruct (voiceDisabled s); [done|]. unfold handleVoiceCommand.
    destruct (speechSupported s); [|done]. by destruct s.
  - destruct (phase_in i [Starting] s); [|done]. by destruct s.
  - destruct (phase_in i [Active] s); [|done]. unfold onresult.
    destruct (recognitions s !! i); [|done]. by destruct s.
  - destruct (phase_in i [Starting; Active] s); [|done]. by destruct s.
  - destruct (phase_in i [Active; Finishing] s); [|done]. by destruct s.
  - unfold onresult_resumed. destruct (voiceCalls s !! k) as [[tr cur]|]; [|done].
    destruct (GeminiService.processVoiceCommand tr cur response (store s))
      as [[h arr] rep]. by destruct s.
Qed.

Lemma completed_until_new_plan_witness :
  status (step ClickToggle finished) = COMPLETED
  ∧ activeTaskIndex (step ClickToggle finished) = activeTaskIndex finished.
Proof.
  apply (completed_until_new_plan finished ClickToggle).
  - unfold finished, afterStart. apply reachable_run, reachable_run, reachable_mount.
  - by vm_compute.
  - discriminate.
Defined.

(** ** Execution past the end of the queue *)

(** When a command has left the index at or beyond the end of the queue
    while EXECUTING, no timeout is pending, and the timeout event, the two
    buttons of the approval dialog and Generate Plan each leave the whole
    component state as it is.  If the queue is empty the start/pause
    button is disabled as well, and then no sequence of these controls and
    timeout events changes anything.  (The voice channel still acts: a
    later command can install a queue that reaches the index.) *)
Theorem execution_stalls_past_queue_end (s : State) :
  reachable s → status s = EXECUTING →
  (Z.of_nat (length (tasks s)) ≤ activeTaskIndex s)%Z →
  timer s = None
  ∧ deliver TimeoutFires s = s ∧ deliver ClickApprove s = s
  ∧ deliver ClickPauseReview s = s ∧ deliver ClickGeneratePlan s = s
  ∧ (tasks s = [] → ∀ es, Forall (λ e, e ∈ controls) es → run es s = s).
Proof.
  intros Hr Hst Hlen.
  assert (Hp : timer s = None).
  { pose proof (timeout_pending s (reachable_consistent s Hr)) as Hp.
    unfold timer_armed in Hp. by rewrite decide_False in Hp by lia. }
  assert (Ht : deliver TimeoutFires s = s).
  { apply deliver_inert. cbn. by rewrite Hp. }
  assert (Ha : deliver ClickApprove s = s).
  { apply deliver_inert. cbn. unfold approvalDialogShown. by rewrite Hst. }
  assert (Hv : deliver ClickPauseReview s = s).
  { apply deliver_inert. cbn. unfold approvalDialogShown. by rewrite Hst. }
  assert (Hg : deliver ClickGeneratePlan s = s).
  { apply deliver_inert. cbn. unfold generateDisabled. by rewrite Hst. }
  split_and!; try done.
  intros Hnil es Hes. induction Hes as [|e es He _ IH]; [done|].
  cbn [run fold_left]. fold (run es (deliver e s)).
  assert (Hs : deliver e s = s); [|by rewrite Hs].
  unfold controls in He. rewrite !elem_of_cons in He.
  destruct He as [->|[->|[->|[->|[->|He]]]]]; [done| |done..|by apply elem_of_nil in He].
  apply deliver_inert. cbn. unfold toggleDisabled. by rewrite Hnil.
Qed.

Lemma execution_stalls_past_queue_end_witness :
  timer emptied = None
  ∧ deliver TimeoutFires emptied = emptied ∧ deliver ClickApprove emptied = emptied
  ∧ deliver ClickPauseReview emptied = emptied
  ∧ deliver ClickGeneratePlan emptied = emptied
  ∧ (tasks emptied = [] →
     ∀ es, Forall (λ e, e ∈ controls) es → run es emptied = emptied).
Proof.
  apply (execution_stalls_past_queue_end emptied).
  - unfold emptied, afterStart. apply reachable_run, reachable_run, reachable_mount.
  - by vm_compute.
  - by vm_compute.
Defined.

(** ** Review instead of approval *)

(** From the approval dialog, [Pause / Review] followed by resume re-arms
    the timeout for the same task, and when it elapses the dialog is back:
    queue, task objects and index are unchanged.  The review itself writes
    no log line; the resume and the renewed approval request do. *)
Theorem review_then_resume_asks_again (s : State) (r : ref) :
  reachable s → status s = AWAITING_APPROVAL →
  element (tasks s) (activeTaskIndex s) = Some r →
  let s' := run [ClickPauseReview; ClickToggle; TimeoutFires] s in
  status (step ClickPauseReview s) = PAUSED
  ∧ logs (step ClickPauseReview s) = logs s
  ∧ status s' = AWAITING_APPROVAL
  ∧ tasks s' = tasks s ∧ store s' = store s
  ∧ activeTaskIndex s' = activeTaskIndex s
  ∧ logs s' = logs s
              ++ ["[SYSTEM] Operation Resumed.";
                  "[SYSTEM] Task " +:+ dq +:+ read_text RecoveryTask.title (store s) r
                  +:+ dq +:+ " pending Commander approval."].
Proof.
  intros Hr Hst Hel. cbn zeta. cbn [run fold_left].
  pose proof Hel as Hel0. apply element_Some in Hel0 as [H0 Hl].
  assert (Hne : tasks s ≠ []) by (intros Hn; by rewrite Hn in Hl).
  (* the review *)
  set (p := step ClickPauseReview s).
  assert (Hp : status p = PAUSED ∧ tasks p = tasks s ∧ store p = store s
               ∧ activeTaskIndex p = activeTaskIndex s ∧ logs p = logs s).
  { subst p. unfold step.
    destruct (useEffect_main_fields s (dispatch ClickPauseReview s))
      as (-> & -> & -> & -> & -> & _).
    cbn. unfold approvalDialogShown.
    rewrite bool_decide_eq_true_2 by (split; [done|lia]). by destruct s. }
  destruct Hp as (Pst & Pts & Ph & Pix & Pl).
  (* the resume *)
  set (q := step ClickToggle p).
  assert (Hq : status q = EXECUTING ∧ tasks q = tasks s ∧ store q = store s
               ∧ activeTaskIndex q = activeTaskIndex s
               ∧ logs q = logs s ++ ["[SYSTEM] Operation Resumed."]
               ∧ timer_armed q).
  { assert (Hd : dispatch ClickToggle p
                 = pushLog "[SYSTEM] Operation Resumed." (setStatus EXECUTING p)).
    { cbn. unfold toggleDisabled.
      rewrite bool_decide_eq_false_2.
      2:{ rewrite Pst, Pts. destruct (tasks s); [done|]. cbn. intuition congruence. }
      unfold toggleExecution. rewrite decide_True by (by right).
      rewrite Pts. destruct (tasks s); [done|].
      rewrite decide_False by lia. done. }
    subst q. unfold step.
    destruct (useEffect_main_fields p (dispatch ClickToggle p))
      as (-> & -> & -> & -> & -> & _).
    split_and!; try (rewrite Hd; destruct p; cbn in *; congruence).
    apply useEffect_main_rearmed. rewrite Hd, Pst. by destruct p. }
  destruct Hq as (Qst & Qts & Qh & Qix & Ql & Qt).
  assert (Hel' : element (tasks q) (activeTaskIndex q) = Some r)
    by (by rewrite Qts, Qix).
  destruct (timeout_elapses q r Qst Qt Hel') as (Tst & Tts & Th & Tix & Tl).
  rewrite (deliver_live ClickPauseReview s) by (by apply (renders_element s r)).
  fold p.
  rewrite (deliver_live ClickToggle p)
    by (apply renders_outside_approval; by rewrite Pst).
  fold q.
  rewrite (deliver_live TimeoutFires q)
    by (apply renders_outside_approval; by rewrite Qst).
  split_and!; try congruence.
  rewrite Tl, Ql, Qh, <- app_assoc. done.
Qed.

Lemma review_then_resume_asks_again_witness :
  let s' := run [ClickPauseReview; ClickToggle; TimeoutFires] awaitingFirst in
  status (step ClickPauseReview awaitingFirst) = PAUSED
  ∧ logs (step ClickPauseReview awaitingFirst) = logs awaitingFirst
  ∧ status s' = AWAITING_APPROVAL
  ∧ tasks s' = tasks awaitingFirst ∧ store s' = store awaitingFirst
  ∧ activeTaskIndex s' = activeTaskIndex awaitingFirst
  ∧ logs s' = logs awaitingFirst
              ++ ["[SYSTEM] Operation Resumed.";
                  "[SYSTEM] Task " +:+ dq
                  +:+ read_text RecoveryTask.title (store awaitingFirst) 0
                  +:+ dq +:+ " pending Commander approval."].
Proof.
  apply (review_then_resume_asks_again awaitingFirst 0).
  - unfold awaitingFirst, afterStart. apply reachable_run, reachable_run, reachable_mount.
  - by vm_compute.
  - by vm_compute.
Defined.

(** ** Plan generation *)

(** Whatever the planner returns, a plan generation started from IDLE or
    COMPLETED installs the tasks of [generateRecoveryPlan] as fresh,
    distinct objects, each with status pending even if the response
    carried another status; the index is -1, the state IDLE, and the three
    [AI] lines are logged with the number of tasks. *)
Theorem plan_generation_installs_pending_queue (s : State)
    (response : Outcome (list RecoveryTask.t)) :
  status s = IDLE ∨ status s = COMPLETED → planCalls s = [] →
  let plan := GeminiService.generateRecoveryPlan (simType s) (simLocation s)
                response in
  let s' := run [ClickGeneratePlan; PlanSettles 0 response] s in
  queue s' = map Some plan
  ∧ NoDup (tasks s')
  ∧ (∀ i, (i < length plan)%nat → task_status s' i = Some pending)
  ∧ activeTaskIndex s' = (-1)%Z ∧ status s' = IDLE
  ∧ logs s' = logs s ++ planLines s (length plan).
Proof.
  intros Hst Hpc. destruct s as [ts st ix lg loc ty li pv h tm pc rc vc sp].
  cbn in Hst, Hpc. subst pc. cbn zeta.
  set (plan := GeminiService.generateRecoveryPlan ty loc response).
  pose proof (snapshot_allocate h plan) as Hq.
  pose proof (shaped_allocate h plan
                (generateRecoveryPlan_pending ty loc response)) as (Hnd & _ & _ & Hs).
  assert (Hpend : ∀ i, (i < length plan)%nat →
            seq (length h) (length plan) !! i ≫= read_status (h ++ plan)
            = Some pending).
  { intros i Hi. rewrite lookup_seq_lt by done. cbn.
    apply (Hs i); [by apply lookup_seq_lt|lia]. }
  destruct Hst; subst st; cbn; unstep; unstep; unfold queue, task_status; cbn;
    fold plan; rewrite length_seq, <- ?app_assoc; cbn; done.
Qed.

Lemma plan_generation_installs_pending_queue_witness :
  let plan := GeminiService.generateRecoveryPlan FLOOD "Coastal District A"
                (Parsed [RecoveryTask.mk "7" "Pump Station" "Restart the pumps"
                           completed "Engineers" "4 hours"]) in
  let s' := run [ClickGeneratePlan;
                 PlanSettles 0
                   (Parsed [RecoveryTask.mk "7" "Pump Station" "Restart the pumps"
                              completed "Engineers" "4 hours"])] (mount true) in
  queue s' = map Some plan
  ∧ NoDup (tasks s')
  ∧ (∀ i, (i < length plan)%nat → task_status s' i = Some pending)
  ∧ activeTaskIndex s' = (-1)%Z ∧ status s' = IDLE
  ∧ logs s' = logs (mount true) ++ planLines (mount true) (length plan).
Proof.
  apply (plan_generation_installs_pending_queue (mount true)
           (Parsed [RecoveryTask.mk "7" "Pump Station" "Restart the pumps"
                      completed "Engineers" "4 hours"])).
  - by left.
  - done.
Defined.

(** ** Order of execution *)

(** As long as no command has been merged, the queue holds distinct tasks,
    every task before the active index is completed and every task after
    it is pending: no task is skipped and none is run out of order. *)
Theorem executor_keeps_queue_in_order (speech : bool) (es : list Event) :
  forallb (λ e, negb (is_merge e)) es = true →
  let s := run es (mount speech) in
  NoDup (tasks s)
  ∧ ∀ i, (i < length (tasks s))%nat →
      ((Z.of_nat i < activeTaskIndex s)%Z → task_status s i = Some completed)
      ∧ ((activeTaskIndex s < Z.of_nat i)%Z → task_status s i = Some pending).
Proof.
  intros Hes. cbn zeta.
  destruct (run_ordered es (mount speech) Hes (mount_ordered speech))
    as (Hnd & _ & _ & Hs).
  split; [done|]. intros i Hi.
  destruct (lookup_lt_is_Some_2 _ i Hi) as [r Hr].
  unfold task_status. rewrite Hr. cbn. by apply Hs.
Qed.

Lemma executor_keeps_queue_in_order_witness :
  NoDup (tasks secondRunning)
  ∧ ∀ i, (i < length (tasks secondRunning))%nat →
      ((Z.of_nat i < activeTaskIndex secondRunning)%Z
       → task_status secondRunning i = Some completed)
      ∧ ((activeTaskIndex secondRunning < Z.of_nat i)%Z
         → task_status secondRunning i = Some pending).
Proof.
  apply (executor_keeps_queue_in_order true
           [ClickGeneratePlan; PlanSettles 0 Throws; ClickToggle;
            TimeoutFires; ClickApprove]).
  by vm_compute.
Defined.

Lemma start_then_approvals (s : State) :
  ordered s → tasks s ≠ [] → status s = IDLE →
  activeTaskIndex s = (-1)%Z →
  let s' := run (ClickToggle :: approvals (length (tasks s))) s in
  status s' = COMPLETED ∧ tasks s' = tasks s
  ∧ ∀ i, (i < length (tasks s'))%nat → task_status s' i = Some completed.
Proof.
  intros Ho Hne Hst Hix. cbn zeta. cbn [run fold_left].
  rewrite (deliver_live ClickToggle s)
    by (apply renders_outside_approval; by rewrite Hst).
  fold (run (approvals (length (tasks s))) (step ClickToggle s)).
  assert (Hd : dispatch ClickToggle s = toggleExecution s).
  { cbn. unfold toggleDisabled. rewrite bool_decide_eq_false_2; [done|].
    rewrite Hst. destruct (tasks s); [done|]. cbn. intuition congruence. }
  destruct (useEffect_main_fields s (dispatch ClickToggle s))
    as (Ets & Est & Eix & _ & Eh & _).
  fold (step ClickToggle s) in Ets, Est, Eix, Eh. rewrite Hd in Ets, Est, Eix, Eh.
  destruct (toggle_queue s)
    as [(_ & _ & Hsame)|(r0 & ts & Et & _ & Tts & Th & Tix & Tst)].
  { exfalso. revert Hsame. unfold toggleExecution.
    rewrite decide_True by (by left). destruct (tasks s); [done|].
    rewrite decide_True by done. destruct s; cbn in *. lia. }
  assert (Hs1 : executing_at (step ClickToggle s)).
  { unfold executing_at. split_and!.
    - by rewrite Est.
    - unfold step. apply useEffect_main_rearmed. rewrite Hd, Tst, Hst. done.
    - by apply step_ordered.
    - rewrite Eix, Tix. lia.
    - rewrite Eix, Tix, Ets, Tts, Et. cbn. lia. }
  destruct (approvals_complete (length (tasks s)) _ Hs1) as (? & Ef & ?).
  { rewrite Eix, Tix, Ets, Tts. lia. }
  repeat split; [done|by rewrite Ef, Ets|done].
Qed.

(** From mount to completion: whatever the planner returns, as long as the
    resulting plan is not empty, generating the plan, starting it and
    approving each task as its timeout elapses ends in COMPLETED with as
    many tasks as the plan has, every one of them completed. *)
Theorem generated_plan_runs_to_completion (speech : bool)
    (response : Outcome (list RecoveryTask.t)) :
  let plan := GeminiService.generateRecoveryPlan FLOOD "Coastal District A"
                response in
  plan ≠ [] →
  let s' := run ([ClickGeneratePlan; PlanSettles 0 response; ClickToggle]
                 ++ approvals (length plan)) (mount speech) in
  status s' = COMPLETED ∧ length (tasks s') = length plan
  ∧ ∀ i, (i < length plan)%nat → task_status s' i = Some completed.
Proof.
  cbn zeta.
  set (plan := GeminiService.generateRecoveryPlan FLOOD "Coastal District A" response).
  intros Hne.
  change ([ClickGeneratePlan; PlanSettles 0 response; ClickToggle]
          ++ approvals (length plan))
    with ([ClickGeneratePlan; PlanSettles 0 response]
          ++ ClickToggle :: approvals (length plan)).
  rewrite run_app.
  set (s := run [ClickGeneratePlan; PlanSettles 0 response] (mount speech)).
  assert (Ho : ordered s) by (by apply run_ordered; [|apply mount_ordered]).
  assert (Hf : tasks s = seq 0 (length plan) ∧ status s = IDLE
               ∧ activeTaskIndex s = (-1)%Z).
  { subst s. cbn. unstep. unstep. by fold plan. }
  destruct Hf as (Hts & Hst & Hix).
  assert (Hlen : length (tasks s) = length plan) by (by rewrite Hts, length_seq).
  rewrite <- Hlen.
  destruct (start_then_approvals s Ho) as (? & Et & H0); try done.
  { intros Hnil. rewrite Hnil in Hlen. by destruct plan. }
  split_and!; [done|by rewrite Et|].
  intros i Hi. apply H0. by rewrite Et.
Qed.

Lemma generated_plan_runs_to_completion_witness :
  let plan := GeminiService.generateRecoveryPlan FLOOD "Coastal District A"
                Throws in
  let s' := run ([ClickGeneratePlan; PlanSettles 0 Throws; ClickToggle]
                 ++ approvals (length plan)) (mount true) in
  status s' = COMPLETED ∧ length (tasks s') = length plan
  ∧ ∀ i, (i < length plan)%nat → task_status s' i = Some completed.
Proof.
  apply (generated_plan_runs_to_completion true Throws). discriminate.
Defined.

(** ** The voice channel and the executor *)

(** The voice channel (button, recogniser callbacks, settling of the
    interpreter call) never assigns the operation state or the active
    index.  Delivered to the mounted component, every voice event other
    than the settling also leaves the task array and the task objects as
    they are, and the component stays mounted with the state and index it
    had.  The settling installs a task array; the component then stays
    mounted with the state and index it had, unless the state is
    AWAITING_APPROVAL and the installed array has no element at the index:
    that is the one case in which the render fails. *)
Theorem voice_channel_keeps_state_and_index (e : Event) (s : State) :
  is_voice_event e = true → renders s = true →
  let s' := deliver e s in
  (renders s' = true →
   status s' = status s ∧ activeTaskIndex s' = activeTaskIndex s)
  ∧ (is_merge e = false →
     renders s' = true ∧ tasks s' = tasks s ∧ store s' = store s)
  ∧ (renders s' = false →
     is_merge e = true ∧ status s = AWAITING_APPROVAL
     ∧ activeTaskIndex s ≠ (-1)%Z
     ∧ element (tasks s') (activeTaskIndex s) = None).
Proof.
  intros He Hr. cbn zeta. rewrite (deliver_live e s Hr).
  destruct (useEffect_main_fields s (dispatch e s))
    as (Ets & Est & Eix & _ & Eh & _).
  fold (step e s) in Ets, Est, Eix, Eh.
  assert (Hf : status (dispatch e s) = status s
               ∧ activeTaskIndex (dispatch e s) = activeTaskIndex s
               ∧ (is_merge e = false →
                  tasks (dispatch e s) = tasks s ∧ store (dispatch e s) = store s)).
  { destruct e; try discriminate He; cbn [dispatch is_merge].
    - destruct (voiceDisabled s); [done|]. unfold handleVoiceCommand.
      destruct (speechSupported s); [|done]. by destruct s.
    - destruct (phase_in i [Starting] s); [|done]. by destruct s.
    - destruct (phase_in i [Active] s); [|done]. unfold onresult.
      destruct (recognitions s !! i); [|done]. by destruct s.
    - destruct (phase_in i [Starting; Active] s); [|done]. by destruct s.
    - destruct (phase_in i [Active; Finishing] s); [|done]. by destruct s.
    - unfold onresult_resumed. destruct (voiceCalls s !! k) as [[tr cur]|]; [|done].
      destruct (GeminiService.processVoiceCommand tr cur response (store s))
        as [[h arr] rep]. by destruct s. }
  destruct Hf as (Hst & Hix & Hkeep).
  rewrite Hst in Est. rewrite Hix in Eix.
  assert (Hsame : is_merge e = false → renders (step e s) = true).
  { intros Hm. destruct (Hkeep Hm) as [Ht _].
    rewrite <- Hr. unfold renders, approvalDialogShown.
    by rewrite Est, Eix, Ets, Ht. }
  split_and!.
  - done.
  - intros Hm. destruct (Hkeep Hm) as [Ht Hh].
    split_and!; [by apply Hsame|by rewrite Ets|by rewrite Eh].
  - intros Hd. destruct (is_merge e) eqn:Hm.
    + apply renders_false in Hd as (Hd1 & Hd2 & Hd3).
      rewrite Est in Hd1. rewrite Eix in Hd2, Hd3. done.
    + rewrite Hsame in Hd; done.
Qed.

Lemma voice_channel_keeps_state_and_index_witness :
  (let e := RecResult 0 "cancel the remaining tasks" in
   let s := run [ClickVoice; RecStart 0] secondRunning in
   let s' := deliver e s in
   (renders s' = true →
    status s' = status s ∧ activeTaskIndex s' = activeTaskIndex s)
   ∧ (is_merge e = false →
      renders s' = true ∧ tasks s' = tasks s ∧ store s' = store s)
   ∧ (renders s' = false →
      is_merge e = true ∧ status s = AWAITING_APPROVAL
      ∧ activeTaskIndex s ≠ (-1)%Z
      ∧ element (tasks s') (activeTaskIndex s) = None))
  ∧ (let e := VoiceSettles 0 (Parsed shrinkReply) in
     let s := commandPending in
     let s' := deliver e s in
     (renders s' = true →
      status s' = status s ∧ activeTaskIndex s' = activeTaskIndex s)
     ∧ (is_merge e = false →
        renders s' = true ∧ tasks s' = tasks s ∧ store s' = store s)
     ∧ (renders s' = false →
        is_merge e = true ∧ status s = AWAITING_APPROVAL
        ∧ activeTaskIndex s ≠ (-1)%Z
        ∧ element (tasks s') (activeTaskIndex s) = None))
  ∧ (let e := VoiceSettles 0 (Parsed shrinkReply) in
     let s := commandAtApproval in
     let s' := deliver e s in
     (renders s' = true →
      status s' = status s ∧ activeTaskIndex s' = activeTaskIndex s)
     ∧ (is_merge e = false →
        renders s' = true ∧ tasks s' = tasks s ∧ store s' = store s)
     ∧ (renders s' = false →
        is_merge e = true ∧ status s = AWAITING_APPROVAL
        ∧ activeTaskIndex s ≠ (-1)%Z
        ∧ element (tasks s') (activeTaskIndex s) = None)).
Proof.
  split_and!.
  - apply (voice_channel_keeps_state_and_index
             (RecResult 0 "cancel the remaining tasks")
             (run [ClickVoice; RecStart 0] secondRunning)); by vm_compute.
  - apply (voice_channel_keeps_state_and_index
             (VoiceSettles 0 (Parsed shrinkReply)) commandPending); by vm_compute.
  - apply (voice_channel_keeps_state_and_index
             (VoiceSettles 0 (Parsed shrinkReply)) commandAtApproval);
      by vm_compute.
Defined.

(** ** Commands that carry no task list *)

(** When the interpreter fails, or its result has no [updatedTasks], and
    the array captured at the button press is still the current one, the
    queue, the task objects, the state and the index are all unchanged;
    one [AI REASONING] line is logged: the interference notice on failure,
    otherwise the reply, or "Command acknowledged." when the reply is
    absent or empty. *)
Theorem command_without_tasks_keeps_queue (s : State) (k : nat) (tr : string)
    (response : Outcome GeminiService.VoiceJson) :
  voiceCalls s !! k = Some (tr, tasks s) →
  (response = Throws
   ∨ ∃ rep, response = Parsed {| GeminiService.updatedTasks := None;
                                 GeminiService.reply := rep |}) →
  let s' := step (VoiceSettles k response) s in
  let line :=
    match response with
    | Throws => "Signal interference. Command not processed."
    | Parsed result =>
        match GeminiService.reply result with
        | None | Some EmptyString => "Command acknowledged."
        | Some text => text
        end
    end in
  queue s' = queue s ∧ tasks s' = tasks s ∧ store s' = store s
  ∧ status s' = status s ∧ activeTaskIndex s' = activeTaskIndex s
  ∧ logs s' = logs s ++ ["[AI REASONING] " +:+ line].
Proof.
  intros Hk Hr. cbn zeta.
  destruct (onresult_resumed_fields s k tr (tasks s) response Hk)
    as (Hs & Ht & Hl & Hst & Hi & _).
  unfold queue. rewrite Hs, Ht, Hl, Hst, Hi.
  destruct Hr as [->|[rep ->]]; cbn; [done|].
  by destruct rep as [[|]|].
Qed.

Lemma command_without_tasks_keeps_queue_witness :
  let s := run [ClickVoice; RecStart 0; RecResult 0 "say again"] afterStart in
  let s' := step (VoiceSettles 0 Throws) s in
  queue s' = queue s ∧ tasks s' = tasks s ∧ store s' = store s
  ∧ status s' = status s ∧ activeTaskIndex s' = activeTaskIndex s
  ∧ logs s' = logs s
              ++ ["[AI REASONING] Signal interference. Command not processed."].
Proof.
  apply (command_without_tasks_keeps_queue
           (run [ClickVoice; RecStart 0; RecResult 0 "say again"] afterStart)
           0 "say again" Throws).
  - by vm_compute.
  - by left.
Defined.

(** * The reasoning service *)

(** ** Threat and event types *)

Lemma upper_ascii_idemp (c : ascii) : upper_ascii (upper_ascii c) = upper_ascii c.
Proof.
  destruct c as [[] [] [] [] [] [] [] []]; reflexivity.
Qed.

Lemma toUpperCase_idemp (s : string) : toUpperCase (toUpperCase s) = toUpperCase s.
Proof.
  induction s as [|c s IH]; [done|]. cbn. by rewrite upper_ascii_idemp, IH.
Qed.

(** The keyword mapping of [analyzeLocationRisks] sends the values of
    EARTHQUAKE, FLOOD, WILDFIRE, HURRICANE, TSUNAMI and GENERAL to
    themselves, but "Volcano" to GENERAL and "Severe Storm" to HURRICANE;
    an absent or empty threat gives GENERAL; and the result does not
    depend on the case of ASCII letters. *)
Theorem dominantThreatOf_on_types :
  (∀ t, GeminiAnalysis.dominantThreatOf (Some (DisasterType_value t))
        = match t with
          | VOLCANO => GENERAL
          | STORM => HURRICANE
          | _ => t
          end)
  ∧ GeminiAnalysis.dominantThreatOf None = GENERAL
  ∧ GeminiAnalysis.dominantThreatOf (Some EmptyString) = GENERAL
  ∧ (∀ x, GeminiAnalysis.dominantThreatOf (Some (toUpperCase x))
          = GeminiAnalysis.dominantThreatOf (Some x)).
Proof.
  split_and!; try done.
  - by intros [].
  - intros x. unfold GeminiAnalysis.dominantThreatOf.
    destruct x as [|c x]; [done|]. cbn [toUpperCase GeminiService.or_text].
    change (String (upper_ascii (upper_ascii c)) (toUpperCase (toUpperCase x)))
      with (toUpperCase (toUpperCase (String c x))).
    by rewrite toUpperCase_idemp.
Qed.

Lemma eventTypeOf_upper (upper : string → string) (t : DisasterType)
    (x : string) :
  (∀ t', upper (DisasterType_value t') = toUpperCase (DisasterType_value t')) →
  upper x = upper (DisasterType_value t) →
  GeminiAnalysis.eventTypeOf upper (Some x) = t.
Proof.
  intros Hup H. unfold GeminiAnalysis.eventTypeOf.
  cbn [find DisasterType_values]. rewrite H, !Hup. by destruct t.
Qed.

(** The type given to a fetched event is the member of [DisasterType]
    whose name and the reported type are equal once both are upper-cased by
    the runtime (Volcano and Severe Storm included); conversely a result
    other than GENERAL is a member whose upper-cased name is the upper-cased
    reported type; without a type the result is GENERAL.  Of the runtime's
    upper-casing only its value on the eight member names is used. *)
Theorem eventTypeOf_case_insensitive (upper : string → string) (x : string)
    (t : DisasterType) :
  (∀ t', upper (DisasterType_value t') = toUpperCase (DisasterType_value t')) →
  (upper x = upper (DisasterType_value t) →
   GeminiAnalysis.eventTypeOf upper (Some x) = t)
  ∧ (GeminiAnalysis.eventTypeOf upper (Some x) = t → t ≠ GENERAL →
     upper x = upper (DisasterType_value t))
  ∧ GeminiAnalysis.eventTypeOf upper None = GENERAL.
Proof.
  intros Hup. split_and!; [by apply eventTypeOf_upper| |done].
  unfold GeminiAnalysis.eventTypeOf. intros Ht Hg.
  destruct (find _ DisasterType_values) as [t'|] eqn:E; cbn in Ht; subst t;
    [|done].
  apply find_some in E as [_ E]. apply String.eqb_eq in E. done.
Qed.

Lemma eventTypeOf_case_insensitive_witness :
  (toUpperCase "severe STORM" = toUpperCase (DisasterType_value STORM) →
   GeminiAnalysis.eventTypeOf toUpperCase (Some "severe STORM") = STORM)
  ∧ (GeminiAnalysis.eventTypeOf toUpperCase (Some "severe STORM") = STORM →
     STORM ≠ GENERAL →
     toUpperCase "severe STORM" = toUpperCase (DisasterType_value STORM))
  ∧ GeminiAnalysis.eventTypeOf toUpperCase None = GENERAL.
Proof.
  apply (eventTypeOf_case_insensitive toUpperCase "severe STORM" STORM).
  by intros t'.
Defined.

(** ** Alert text *)

(** [generateAlertMessage] never yields an empty message: an absent or
    empty service text is replaced by the fixed sentence, and a failed call
    by the sentence naming the type and the location. *)
Theorem generateAlertMessage_never_empty (type : DisasterType)
    (location : string) (response : Outcome (option string)) :
  GeminiAnalysis.generateAlertMessage type location response ≠ EmptyString
  ∧ (response = Parsed None ∨ response = Parsed (Some EmptyString) →
     GeminiAnalysis.generateAlertMessage type location response
     = "EMERGENCY ALERT: Seek shelter immediately.")
  ∧ (response = Throws →
     GeminiAnalysis.generateAlertMessage type location response
     = "EMERGENCY ALERT: " +:+ DisasterType_value type +:+ " detected in "
       +:+ location +:+ ". Take cover immediately.").
Proof.
  split_and!.
  - destruct response as [|[[|c text]|]]; cbn; done.
  - by intros [-> | ->].
  - by intros ->.
Qed.

Lemma generateAlertMessage_never_empty_witness :
  GeminiAnalysis.generateAlertMessage FLOOD "Harbour Road" Throws ≠ EmptyString
  ∧ GeminiAnalysis.generateAlertMessage FLOOD "Harbour Road" Throws
    = "EMERGENCY ALERT: Flood detected in Harbour Road. Take cover immediately.".
Proof.
  destruct (generateAlertMessage_never_empty FLOOD "Harbour Road" Throws)
    as (Hne & _ & Ht).
  split; [exact Hne|exact (Ht eq_refl)].
Defined.

(** ** Slicing the text before parsing *)

Lemma indexOf_Some (c : ascii) (s : list ascii) (i : nat) :
  GeminiAnalysis.indexOf c s = Some i ↔
  s !! i = Some c ∧ ∀ k, (k < i)%nat → s !! k ≠ Some c.
Proof.
  unfold GeminiAnalysis.indexOf. split.
  - intros H. destruct (list_find _ s) as [[i' x]|] eqn:E; [|done].
    cbn in H. injection H as ->. apply list_find_Some in E as (Hl & -> & Hn).
    split; [done|]. intros k Hk Hc. by apply (Hn k c).
  - intros [Hl Hn].
    assert (E : list_find (λ x, x = c) s = Some (i, c)).
    { apply list_find_Some. split_and!; [done..|].
      intros j y Hj Hlt ->. by apply (Hn j). }
    by rewrite E.
Qed.

Lemma lastIndexOf_Some (c : ascii) (s : list ascii) (j : nat) :
  GeminiAnalysis.lastIndexOf c s = Some j →
  s !! j = Some c ∧ ∀ k, (j < k)%nat → s !! k ≠ Some c.
Proof.
  unfold GeminiAnalysis.lastIndexOf. intros H.
  destruct (list_find _ (reverse s)) as [[i x]|] eqn:E; [|done].
  cbn in H. injection H as <-. apply list_find_Some in E as (Hl & -> & Hn).
  pose proof (lookup_lt_Some _ _ _ Hl) as Hi. rewrite length_reverse in Hi.
  rewrite reverse_lookup in Hl by done.
  split; [by replace (length s - 1 - i)%nat with (length s - S i)%nat by lia|].
  intros k Hk Hc. pose proof (lookup_lt_Some _ _ _ Hc) as Hlen.
  apply (Hn (length s - S k)%nat c); [|lia|done].
  rewrite reverse_lookup by lia.
  by replace (length s - S (length s - S k))%nat with k by lia.
Qed.

(** When the opening bracket first occurs at or before the last closing
    bracket, the slice runs from the one to the other: it starts with the
    opening bracket, ends with the closing one, and what is cut off before
    and after holds no opening, respectively closing, bracket.  When one
    of the brackets does not occur, the text is left as it is. *)
Theorem sliceJson_brackets (opening closing : ascii) (s : list ascii) :
  (∀ i j, GeminiAnalysis.indexOf opening s = Some i →
          GeminiAnalysis.lastIndexOf closing s = Some j → (i ≤ j)%nat →
     let r := GeminiAnalysis.sliceJson opening closing s in
     head r = Some opening ∧ last r = Some closing
     ∧ s = take i s ++ r ++ drop (j + 1) s
     ∧ (opening ∉ take i s) ∧ (closing ∉ drop (j + 1) s))
  ∧ (GeminiAnalysis.indexOf opening s = None
     ∨ GeminiAnalysis.lastIndexOf closing s = None →
     GeminiAnalysis.sliceJson opening closing s = s).
Proof.
  split.
  - intros i j Hi Hj Hij. cbn zeta. unfold GeminiAnalysis.sliceJson.
    rewrite Hi, Hj. unfold GeminiAnalysis.substring.
    replace (i `max` (j + 1))%nat with (j + 1)%nat by lia.
    replace (i `min` (j + 1))%nat with i by lia.
    apply indexOf_Some in Hi as [Hi Hbefore].
    apply lastIndexOf_Some in Hj as [Hj Hafter].
    pose proof (lookup_lt_Some _ _ _ Hj) as Hlen.
    split_and!.
    + rewrite head_lookup, lookup_take_lt, lookup_drop by lia.
      by rewrite Nat.add_0_r.
    + rewrite last_lookup, length_take, length_drop.
      replace (Init.Nat.pred ((j + 1 - i) `min` (length s - i)))%nat
        with (j - i)%nat by lia.
      rewrite lookup_take_lt, lookup_drop by lia.
      by replace (i + (j - i))%nat with j by lia.
    + replace (drop (j + 1) s) with (drop (j + 1 - i) (drop i s))
        by (rewrite drop_drop; f_equal; lia).
      by rewrite take_drop, take_drop.
    + intros Hin. apply list_elem_of_lookup in Hin as [k Hk].
      apply lookup_take_Some in Hk as [Hk Hlt]. by apply (Hbefore k).
    + intros Hin. apply list_elem_of_lookup in Hin as [k Hk].
      rewrite lookup_drop in Hk. apply (Hafter (j + 1 + k)%nat); [lia|done].
  - unfold GeminiAnalysis.sliceJson. intros [-> | ->]; [done|].
    by destruct (GeminiAnalysis.indexOf opening s).
Qed.

Lemma sliceJson_brackets_witness :
  let s := list_ascii_of_string "Sure: {a} and {b}. Done" in
  let r := GeminiAnalysis.sliceJson "{" "}" s in
  r = list_ascii_of_string "{a} and {b}"
  ∧ head r = Some "{"%char ∧ last r = Some "}"%char.
Proof.
  destruct (sliceJson_brackets "{" "}"
              (list_ascii_of_string "Sure: {a} and {b}. Done")) as [H _].
  destruct (H 6 16)%nat as (Hh & Hl & _); [by vm_compute..|lia|].
  split_and!; [by vm_compute|exact Hh|exact Hl].
Defined.

(** When the last closing bracket comes before the first opening one, the
    arguments of [substring] are swapped and the slice is the text strictly
    between the two: it contains neither bracket. *)
Theorem sliceJson_reversed (opening closing : ascii) (s : list ascii)
    (i j : nat) :
  GeminiAnalysis.indexOf opening s = Some i →
  GeminiAnalysis.lastIndexOf closing s = Some j → (j < i)%nat →
  let r := GeminiAnalysis.sliceJson opening closing s in
  r = take (i - (j + 1)) (drop (j + 1) s)
  ∧ (opening ∉ r) ∧ (closing ∉ r).
Proof.
  intros Hi Hj Hji. cbn zeta. unfold GeminiAnalysis.sliceJson.
  rewrite Hi, Hj. unfold GeminiAnalysis.substring.
  replace (i `max` (j + 1))%nat with i by lia.
  replace (i `min` (j + 1))%nat with (j + 1)%nat by lia.
  apply indexOf_Some in Hi as [Hi Hbefore].
  apply lastIndexOf_Some in Hj as [Hj Hafter].
  split_and!; [done|..].
  - intros Hin. apply list_elem_of_lookup in Hin as [k Hk].
    apply lookup_take_Some in Hk as [Hk Hlt]. rewrite lookup_drop in Hk.
    apply (Hbefore (j + 1 + k)%nat); [lia|done].
  - intros Hin. apply list_elem_of_lookup in Hin as [k Hk].
    apply lookup_take_Some in Hk as [Hk Hlt]. rewrite lookup_drop in Hk.
    apply (Hafter (j + 1 + k)%nat); [lia|done].
Qed.

Lemma sliceJson_reversed_witness :
  let s := list_ascii_of_string "} and {" in
  let r := GeminiAnalysis.sliceJson "{" "}" s in
  r = take (6 - (0 + 1)) (drop (0 + 1) s) ∧ ("{"%char ∉ r) ∧ ("}"%char ∉ r).
Proof.
  apply (sliceJson_reversed "{" "}" (list_ascii_of_string "} and {") 6 0).
  - by vm_compute.
  - by vm_compute.
  - lia.
Defined.

(** * Early warning preferences *)

(** Toggling a disaster type flips the membership of that type only, and
    keeps the list free of duplicates. *)
Theorem toggleDisasterType_membership (type : DisasterType)
    (types : list DisasterType) :
  (∀ t, t ∈ EarlyWarning.toggleDisasterType type types ↔
        (t = type ∧ type ∉ types) ∨ (t ≠ type ∧ t ∈ types))
  ∧ (NoDup types → NoDup (EarlyWarning.toggleDisasterType type types)).
Proof.
  unfold EarlyWarning.toggleDisasterType.
  destruct (bool_decide_reflect (type ∈ types)) as [Hin|Hnin]; split.
  - intros t. rewrite list_elem_of_filter. split; [tauto|].
    intros [[_ ?]|[? ?]]; done.
  - apply NoDup_filter.
  - intros t. rewrite elem_of_app, list_elem_of_singleton.
    destruct (decide (t = type)) as [->|Hne]; [tauto|]. tauto.
  - intros Hnd. apply NoDup_app. split_and!; [done| |apply NoDup_singleton].
    intros x Hx. rewrite list_elem_of_singleton. by intros ->.
Qed.

Lemma toggleDisasterType_membership_witness :
  (VOLCANO ∈ EarlyWarning.toggleDisasterType VOLCANO EarlyWarning.initialTypes)
  ∧ NoDup (EarlyWarning.toggleDisasterType VOLCANO EarlyWarning.initialTypes).
Proof.
  destruct (toggleDisasterType_membership VOLCANO EarlyWarning.initialTypes)
    as [Hm Hn].
  split.
  - apply Hm. left. split; [done|].
    apply (bool_decide_unpack (VOLCANO ∉ EarlyWarning.initialTypes)). exact I.
  - apply Hn. apply (bool_decide_unpack (NoDup EarlyWarning.initialTypes)). exact I.
Defined.

Lemma filter_absent (type : DisasterType) (types : list DisasterType) :
  type ∉ types → filter (λ t, t ≠ type) types = types.
Proof.
  induction types as [|x types IH]; [done|].
  rewrite not_elem_of_cons. intros [Hne Hnin].
  rewrite filter_cons_True by done. by rewrite IH.
Qed.

(** Toggling twice restores the list exactly when the type was not
    listed; when it was listed (once), it comes back at the end of the
    list, the other types keeping their order. *)
Theorem toggleDisasterType_twice (type : DisasterType)
    (types : list DisasterType) :
  (type ∉ types →
   EarlyWarning.toggleDisasterType type
     (EarlyWarning.toggleDisasterType type types) = types)
  ∧ (type ∈ types →
     EarlyWarning.toggleDisasterType type
       (EarlyWarning.toggleDisasterType type types)
     = filter (λ t, t ≠ type) types ++ [type]).
Proof.
  unfold EarlyWarning.toggleDisasterType. split; intros H.
  - rewrite (bool_decide_eq_false_2 _ H).
    rewrite bool_decide_eq_true_2 by (apply elem_of_app; right; by left).
    rewrite filter_app, filter_absent by done.
    rewrite filter_cons_False by (by intros ?). by rewrite filter_nil, app_nil_r.
  - rewrite (bool_decide_eq_true_2 _ H).
    rewrite bool_decide_eq_false_2; [done|].
    rewrite list_elem_of_filter. by intros [? _].
Qed.

Lemma toggleDisasterType_twice_witness :
  EarlyWarning.toggleDisasterType FLOOD
    (EarlyWarning.toggleDisasterType FLOOD EarlyWarning.initialTypes)
  = [EARTHQUAKE; WILDFIRE; TSUNAMI; HURRICANE; FLOOD].
Proof.
  destruct (toggleDisasterType_twice FLOOD EarlyWarning.initialTypes) as [_ H].
  rewrite H; [reflexivity|].
  apply (bool_decide_unpack (FLOOD ∈ EarlyWarning.initialTypes)). exact I.
Defined.
